(** * repo-watcher: a shallow embedding of [main.go]

    The program watches a root directory of repositories with one fsnotify
    watcher, watches a sub-path of every repository with a second one, and
    runs a shell command in the owning repository whenever a file whose
    base name matches a pattern changes.

    The embedding follows the source function by function.  The process-wide
    variables of the program ([config], [watcherRegexp], [currentlyWatching],
    [watcher], [reposWatcher]) are the fields of one record that is threaded
    through every function; what the program prints through [log] and the
    commands it starts are recorded in the same record.  Everything the
    operating system and the libraries answer ([os.Stat], [ioutil.ReadDir],
    [cmd.Output], the fsnotify calls) is read from a [World] value, one per
    handled event, so that the file system may differ from one event to the
    next.  Paths are Unix paths: [os.PathSeparator] is the slash. *)

From Stdlib Require Import NArith Ascii String.
From stdpp Require Import base strings list gmap.

Open Scope string_scope.
Open Scope list_scope.

(** ** Go strings and paths *)

Definition PathSeparator : ascii := "/"%char.

(** [string(os.PathSeparator)] *)
Definition separator : string := String PathSeparator EmptyString.

Module Strings.

(** [strings.Split(s, sep)] for a one-byte separator, the only way the
    program calls it: the pieces of [s] between the separators, empty
    pieces included; a string without separator is its own only piece. *)
Fixpoint Split (s : string) (sep : ascii) : list string :=
  match s with
  | EmptyString => [EmptyString]
  | String a rest =>
      if Ascii.eqb a sep then EmptyString :: Split rest sep
      else match Split rest sep with
           | [] => [String a EmptyString]
           | piece :: pieces => String a piece :: pieces
           end
  end.

(** [strings.Join(elems, sep)] *)
Fixpoint Join (elems : list string) (sep : string) : string :=
  match elems with
  | [] => EmptyString
  | [e] => e
  | e :: rest => e +:+ sep +:+ Join rest sep
  end.

End Strings.

Module Filepath.

(** [filepath.Split(path)]: the path up to and including its last
    separator, and what follows it. *)
Fixpoint Split (path : string) : string * string :=
  match path with
  | EmptyString => (EmptyString, EmptyString)
  | String a rest =>
      let '(dir, file) := Split rest in
      match dir with
      | String _ _ => (String a dir, file)
      | EmptyString =>
          if Ascii.eqb a PathSeparator
          then (String a EmptyString, file)
          else (EmptyString, String a file)
      end
  end.

(** The element stack of [filepath.Clean]: empty and [.] elements are
    dropped, [..] removes the element before it, is dropped at the root
    of a rooted path and is kept at the front of a relative one.  The
    stack [out] is kept in reverse. *)
Fixpoint cleanElements (rooted : bool) (elements out : list string) : list string :=
  match elements with
  | [] => reverse out
  | e :: rest =>
      if bool_decide (e = EmptyString) || bool_decide (e = ".") then
        cleanElements rooted rest out
      else if bool_decide (e = "..") then
        match out with
        | top :: below =>
            if bool_decide (top = "..") then cleanElements rooted rest (e :: out)
            else cleanElements rooted rest below
        | [] =>
            if rooted then cleanElements rooted rest []
            else cleanElements rooted rest [e]
        end
      else cleanElements rooted rest (e :: out)
  end.

(** [filepath.Clean(path)] on Unix. *)
Definition CleanUnix (path : string) : string :=
  let rooted :=
    match path with
    | String a _ => Ascii.eqb a PathSeparator
    | EmptyString => false
    end in
  let body := Strings.Join (cleanElements rooted (Strings.Split path PathSeparator) []) separator in
  if rooted then separator +:+ body
  else match body with
       | EmptyString => "."
       | _ => body
       end.

End Filepath.

(** ** Go slices of strings

    A slice is its elements and the capacity of its backing array.  The
    program only builds slices by appending to a fresh empty one, so the
    backing array past the length holds zero values (empty strings): every
    reallocation of [append] copies into newly allocated, zeroed memory. *)

Record slice := { elems : list string; cap : nat }.

Definition len (s : slice) : nat := length (elems s).

(** [[]string{}] *)
Definition emptySlice : slice := {| elems := []; cap := 0 |}.

(** ** Results of the calls the program makes *)

(** [os.Stat(name)] returns a [FileInfo] and a nil error, or a nil
    [FileInfo] and an error; [os.IsNotExist] tells the first kind of error
    from all others. *)
Inductive StatResult :=
| FileInfo (IsDir : bool)
| ErrNotExist
| ErrOther (msg : string).

(** [cmd.Output()]: the standard output of the command, or the error of a
    command that could not be started or exited with a non-zero status. *)
Inductive CmdResult :=
| CmdOutput (output : string)
| CmdError (err : string).

(** A compiled [*regexp.Regexp], as far as the program uses it. *)
Record Regexp := { Match : string -> bool }.

(** ** fsnotify events

    [Op] is a 32-bit mask; the constants are the ones fsnotify declares. *)

Module Fsnotify.

Definition Create : N := 1.
Definition Write : N := 2.
Definition Remove : N := 4.
Definition Rename : N := 8.
Definition Chmod : N := 16.

Record Event := { Name : string; Op : N }.

End Fsnotify.

Import Fsnotify.

Inductive logType := logInfo | logError.

Record watcherConfig := {
  ReposRoot : string;
  WatchPath : string;
  WatchRegexp : string;
  Execute : string
}.

(** ** What the platform provides

    [growcap old need] is the capacity [append] gives the new backing array
    when a slice of capacity [old] has to grow to length [need]; the
    language only promises that the array is large enough.  [Clean] is
    [filepath.Clean], [Compile] is [regexp.Compile] (a compiled pattern or an
    error text), [Unmarshal] is [json.Unmarshal] into a zero [watcherConfig]
    (the value left in [config] and the error, if any), [Watcher] is what an
    [*fsnotify.Watcher] knows about its registered paths and [NewWatcher] a
    watcher with no path registered; both calls of [fsnotify.NewWatcher] in
    [main] are taken to succeed. *)

Class Platform := {
  growcap : nat -> nat -> nat;
  growcap_fits : forall old need, need <= growcap old need;
  Clean : string -> string;
  Compile : string -> Regexp + string;
  Unmarshal : string -> watcherConfig * option string;
  Watcher : Type;
  NewWatcher : Watcher
}.

(** The zero value of [watcherConfig]. *)
Definition zeroConfig : watcherConfig :=
  {| ReposRoot := EmptyString; WatchPath := EmptyString;
     WatchRegexp := EmptyString; Execute := EmptyString |}.

(** How a run ends when it does not return: the message of an explicit
    [panic], a nil dereference, or a slice expression [s[:high]] with
    [high] above the capacity. *)
Inductive Panic :=
| PanicMessage (msg : string)
| NilDereference
| SliceBoundsOutOfRange (high capacity : nat).

Section Program.

Context `{Platform}.

(** The answers of the environment while one event (or the start-up) is
    handled.  [WatcherAdd] and [WatcherRemove] give the watcher after the
    call and the error the call returned, if any. *)
Record World := {
  Stat : string -> StatResult;
  ReadDir : string -> list string;
  Output : string -> string -> CmdResult;
  WatcherAdd : string -> Watcher -> Watcher * option string;
  WatcherRemove : string -> Watcher -> Watcher * option string;
  ReadFile : string -> string + string
}.

(** The package-level variables, followed by the two traces the program
    leaves: the lines passed to [log] and the commands started, each with
    its command line and working directory. *)
Record State := {
  config : watcherConfig;
  watcherRegexp : option Regexp;
  reposWatcher : Watcher;
  watcher : Watcher;
  currentlyWatching : gmap string bool;
  logged : list (logType * string);
  executed : list (string * string)
}.

Definition set_config (c : watcherConfig) (st : State) : State :=
  {| config := c; watcherRegexp := watcherRegexp st;
     reposWatcher := reposWatcher st; watcher := watcher st;
     currentlyWatching := currentlyWatching st;
     logged := logged st; executed := executed st |}.

Definition set_watcherRegexp (re : option Regexp) (st : State) : State :=
  {| config := config st; watcherRegexp := re;
     reposWatcher := reposWatcher st; watcher := watcher st;
     currentlyWatching := currentlyWatching st;
     logged := logged st; executed := executed st |}.

Definition set_reposWatcher (w : Watcher) (st : State) : State :=
  {| config := config st; watcherRegexp := watcherRegexp st;
     reposWatcher := w; watcher := watcher st;
     currentlyWatching := currentlyWatching st;
     logged := logged st; executed := executed st |}.

Definition set_watcher (w : Watcher) (st : State) : State :=
  {| config := config st; watcherRegexp := watcherRegexp st;
     reposWatcher := reposWatcher st; watcher := w;
     currentlyWatching := currentlyWatching st;
     logged := logged st; executed := executed st |}.

Definition set_currentlyWatching (m : gmap string bool) (st : State) : State :=
  {| config := config st; watcherRegexp := watcherRegexp st;
     reposWatcher := reposWatcher st; watcher := watcher st;
     currentlyWatching := m;
     logged := logged st; executed := executed st |}.

(** [log(kind, message)]: the line is printed and appended to the log file
    of its kind; failures of the file are ignored by the source. *)
Definition log (kind : logType) (message : string) (st : State) : State :=
  {| config := config st; watcherRegexp := watcherRegexp st;
     reposWatcher := reposWatcher st; watcher := watcher st;
     currentlyWatching := currentlyWatching st;
     logged := logged st ++ [(kind, message)]; executed := executed st |}.

(** A command is started: [cmd.Dir = dir], [sh -c command]. *)
Definition start (command dir : string) (st : State) : State :=
  {| config := config st; watcherRegexp := watcherRegexp st;
     reposWatcher := reposWatcher st; watcher := watcher st;
     currentlyWatching := currentlyWatching st;
     logged := logged st; executed := executed st ++ [(command, dir)] |}.

(** The state [main] starts from. *)
Definition initial : State :=
  {| config := zeroConfig; watcherRegexp := None;
     reposWatcher := NewWatcher; watcher := NewWatcher;
     currentlyWatching := ∅; logged := []; executed := [] |}.

(** A call either returns or panics; a panic in either goroutine ends the
    process, the state is the one reached when it happened. *)
Inductive Outcome :=
| Returned (st : State)
| Panicked (p : Panic) (st : State).

(** [append(s, x)] *)
Definition append (s : slice) (x : string) : slice :=
  {| elems := elems s ++ [x];
     cap := if decide (len s + 1 <= cap s) then cap s
            else growcap (cap s) (len s + 1) |}.

(** [s[:high]]: in range up to the capacity, not the length. *)
Definition sliceTo (s : slice) (high : nat) : option (list string) :=
  if decide (high <= cap s)
  then Some (take high (elems s ++ replicate (cap s - len s) EmptyString))
  else None.

Definition filterEmptyParts (elements : list string) : slice :=
  foldl (fun result element =>
           if decide (0 < String.length element) then append result element
           else result)
        emptySlice elements.

(** [string] of the double quote, for the [Sprintf] format of the source. *)
Definition quote : string := String (ascii_of_nat 34) EmptyString.

(** [err == nil && info.IsDir()], the negation of the guard of [addRepo]. *)
Definition isDirectory (r : StatResult) : bool :=
  match r with
  | FileInfo IsDir => IsDir
  | _ => false
  end.

(** [reposMutex] is held around the membership test and the update; the
    embedding runs one call at a time, which is what the lock enforces. *)
Definition addRepo (w : World) (path : string) (st : State) : State :=
  let cleanPath := Clean path in
  if negb (isDirectory (Stat w cleanPath)) then st else
  let targetPath := Clean (cleanPath +:+ "/" +:+ WatchPath (config st)) in
  if negb (isDirectory (Stat w targetPath)) then st else
  match currentlyWatching st !! cleanPath with
  | Some _ => st
  | None =>
      let st := log logInfo ("[RepoWatch] Adding repo: " +:+ cleanPath) st in
      let st := set_watcher (fst (WatcherAdd w targetPath (watcher st))) st in
      set_currentlyWatching (<[cleanPath := true]> (currentlyWatching st)) st
  end.

Definition removeRepo (w : World) (path : string) (st : State) : State :=
  let cleanPath := Clean path in
  let targetPath := Clean (cleanPath +:+ "/" +:+ WatchPath (config st)) in
  match currentlyWatching st !! cleanPath with
  | Some _ =>
      let st := log logInfo ("[RepoWatch] Removing repo: " +:+ cleanPath) st in
      let st := set_watcher (fst (WatcherRemove w targetPath (watcher st))) st in
      set_currentlyWatching (delete cleanPath (currentlyWatching st)) st
  | None => st
  end.

Definition processReposEvent (w : World) (event : Event) (st : State) : State :=
  if N.eqb (N.land (Op event) Create) Create then addRepo w (Name event) st
  else if N.eqb (N.land (Op event) Chmod) Chmod then addRepo w (Name event) st
  else if N.eqb (N.land (Op event) Rename) Rename then removeRepo w (Name event) st
  else if N.eqb (N.land (Op event) Remove) Remove then removeRepo w (Name event) st
  else st.

Definition execMessage (command repoPath : string) : string :=
  "[RepoWatch] Executing " +:+ quote +:+ command +:+ quote
    +:+ " in " +:+ quote +:+ repoPath +:+ quote.

Definition processEvent (w : World) (event : Event) (st : State) : Outcome :=
  match Stat w (Name event) with
  | ErrNotExist => Returned st
  | ErrOther _ => Panicked NilDereference st
  | FileInfo true => Returned st
  | FileInfo false =>
      let '(dir, baseName) := Filepath.Split (Name event) in
      match watcherRegexp st with
      | None => Panicked NilDereference st
      | Some re =>
          if negb (Match re baseName) then Returned st else
          let reposRootParts :=
            filterEmptyParts (Strings.Split (ReposRoot (config st)) PathSeparator) in
          let dirPathParts := filterEmptyParts (Strings.Split dir PathSeparator) in
          match sliceTo dirPathParts (len reposRootParts + 1) with
          | None =>
              Panicked (SliceBoundsOutOfRange (len reposRootParts + 1) (cap dirPathParts)) st
          | Some parts =>
              let repoPath := Strings.Join parts separator in
              let st := log logInfo (execMessage (Execute (config st)) repoPath) st in
              let st := start (Execute (config st)) repoPath st in
              match Output w (Execute (config st)) repoPath with
              | CmdError err => Returned (log logError err st)
              | CmdOutput output => Returned (log logInfo output st)
              end
          end
      end
  end.

Definition checkError (e : option string) (st : State) : State :=
  match e with
  | Some msg => log logError msg st
  | None => st
  end.

(** How the start-up ends: with a panic, with [watchRepos] returning (then
    [main] returns and the process ends), or in the steady state where both
    goroutines serve their channels and [watchRepos] blocks for ever. *)
Inductive Startup :=
| Aborted (p : Panic) (st : State)
| Exited (st : State)
| Watching (st : State).

(** [watchRepos] up to the point where it blocks on [done].  The two
    goroutines it starts are the loops of [serve] below; the directory
    listing is replayed here before any event is served. *)
Definition watchRepos (w : World) (reposRoot : string) (st : State) : Startup :=
  match Stat w reposRoot with
  | ErrNotExist => Aborted (PanicMessage ("repos root does not exists: " +:+ reposRoot)) st
  | ErrOther _ => Aborted NilDereference st
  | FileInfo false =>
      Aborted (PanicMessage ("specified repos root is not a directory: " +:+ reposRoot)) st
  | FileInfo true =>
      let '(rw, err) := WatcherAdd w reposRoot (reposWatcher st) in
      let st := set_reposWatcher rw st in
      match err with
      | Some msg => Exited (log logError msg st)
      | None =>
          Watching (foldl (fun st file => addRepo w (reposRoot +:+ "/" +:+ file) st)
                          st (ReadDir w reposRoot))
      end
  end.

(** [main] for a process in which both calls of [fsnotify.NewWatcher]
    succeed: [initial] holds the two watchers, their [checkError] logs
    nothing.  What a failed creation leads to is not part of the embedding. *)
Definition main (w : World) : Startup :=
  let st := log logInfo "Starting repos watcher..." initial in
  let '(configData, err) :=
    match ReadFile w "config.json" with
    | inl data => (data, None)
    | inr msg => (EmptyString, Some msg)
    end in
  let st := checkError err st in
  let '(c, err) := Unmarshal configData in
  let st := checkError err (set_config c st) in
  let '(re, err) :=
    match Compile (WatchRegexp (config st)) with
    | inl re => (Some re, None)
    | inr msg => (None, Some msg)
    end in
  let st := checkError err (set_watcherRegexp re st) in
  watchRepos w (ReposRoot (config st)) st.

(** An event taken from [reposWatcher.Events] or from [watcher.Events]. *)
Inductive Delivery :=
| FromRepos (event : Event)
| FromWatcher (event : Event).

Definition handle (w : World) (d : Delivery) (st : State) : Outcome :=
  match d with
  | FromRepos event => Returned (processReposEvent w event st)
  | FromWatcher event => processEvent w event st
  end.

(** The two [for { select { ... } }] loops on a finite schedule: every
    delivery is handled to its end, in the world of its time, before the
    next one; a panic stops everything. *)
Fixpoint serve (schedule : list (World * Delivery)) (st : State) : Outcome :=
  match schedule with
  | [] => Returned st
  | (w, d) :: rest =>
      match handle w d st with
      | Returned st' => serve rest st'
      | Panicked p st' => Panicked p st'
      end
  end.

(** The operations of the repository set, for traces of them. *)
Inductive RepoOp :=
| TryAdd (path : string)
| TryRemove (path : string).

Definition perform (w : World) (op : RepoOp) (st : State) : State :=
  match op with
  | TryAdd path => addRepo w path st
  | TryRemove path => removeRepo w path st
  end.

Definition applyAll (ops : list (World * RepoOp)) (st : State) : State :=
  foldl (fun st step => perform (fst step) (snd step) st) st ops.

End Program.

(** ** A concrete platform and concrete worlds

    Used to run the program on examples.  [Clean] is [Filepath.CleanUnix];
    [append] doubles the capacity, as the gc runtime does for short slices.
    [CompileLiteral] stands for [regexp.Compile] on the patterns of the
    examples: a pattern without metacharacter compiles and matches every
    text that contains it; every other pattern is rejected here, among them
    the unbalanced parenthesis, which Go rejects too, with the error text
    given here.  [Unmarshal] decodes
    every non-empty file to the record [decoded] and fails on empty data.
    A watcher is the list of its registered paths. *)

Definition contains (text sub : string) : bool :=
  match String.index 0 sub text with
  | Some _ => true
  | None => false
  end.

Definition metacharacters : list ascii :=
  list_ascii_of_string "\.+*?()|[]{}^$".

Definition CompileLiteral (expr : string) : Regexp + string :=
  if forallb (fun c => negb (bool_decide (c ∈ metacharacters))) (list_ascii_of_string expr)
  then inl {| Match := fun b => contains b expr |}
  else if bool_decide (expr = "(")
  then inr "error parsing regexp: missing closing ): `(`"
  else inr ("error parsing regexp: " +:+ expr).

Definition doubling (old need : nat) : nat := Nat.max need (2 * old).

Definition addPath (name : string) (paths : list string) : list string * option string :=
  (if bool_decide (name ∈ paths) then paths else (paths ++ [name])%list, None).

Definition removePath (name : string) (paths : list string) : list string * option string :=
  (filter (fun p => p ≠ name) paths, None).

Definition unix (decoded : watcherConfig) : Platform :=
  {| growcap := doubling;
     growcap_fits := fun old need => Nat.le_max_l need (2 * old);
     Clean := Filepath.CleanUnix;
     Compile := CompileLiteral;
     Unmarshal := fun data =>
       match data with
       | EmptyString => (zeroConfig, Some "unexpected end of JSON input")
       | _ => (decoded, None)
       end;
     Watcher := list string;
     NewWatcher := [] |}.

(** The file system of an example: [files] lists the paths that exist, with
    whether each is a directory; the paths in [denied] cannot be examined
    (permission denied); [listing] is the content of every directory read
    and [configFile] what reading the configuration file gives. *)
Record Disk := {
  files : list (string * bool);
  denied : list string;
  listing : list string;
  configFile : string + string
}.

Fixpoint lookupFile (name : string) (fs : list (string * bool)) : option bool :=
  match fs with
  | [] => None
  | (n, IsDir) :: rest => if bool_decide (n = name) then Some IsDir else lookupFile name rest
  end.

Definition diskStat (d : Disk) (name : string) : StatResult :=
  if bool_decide (name ∈ denied d) then ErrOther ("stat " +:+ name +:+ ": permission denied")
  else match lookupFile name (files d) with
       | Some IsDir => FileInfo IsDir
       | None => ErrNotExist
       end.

Definition world (decoded : watcherConfig) (d : Disk) (result : CmdResult) : @World (unix decoded) :=
  @Build_World (unix decoded)
    (diskStat d) (fun _ => listing d) (fun _ _ => result)
    addPath removePath (fun _ => configFile d).

(** A world over any platform: only [os.Stat] answers something; no
    directory has entries, commands print nothing, watcher calls leave the
    watcher as it is, the configuration file cannot be read. *)
Definition bareWorld `{Platform} (stat : string -> StatResult) : World :=
  {| Stat := stat;
     ReadDir := fun _ => [];
     Output := fun _ _ => CmdOutput EmptyString;
     WatcherAdd := fun _ w => (w, None);
     WatcherRemove := fun _ w => (w, None);
     ReadFile := fun _ => inr "open config.json: no such file or directory" |}.

(** ** The examples of the specification

    Repositories live under [/data/repos], the watched sub-path is [src],
    the pattern is the literal [txt] and the command is [make]. *)

Definition exampleConfig : watcherConfig :=
  {| ReposRoot := "/data/repos"; WatchPath := "src";
     WatchRegexp := "txt"; Execute := "make" |}.

Definition exampleDisk : Disk :=
  {| files := [("/data/repos", true); ("/data/repos/alpha", true);
               ("/data/repos/alpha/src", true);
               ("/data/repos/alpha/src/main.txt", false);
               ("/data/repos/alpha/src/notes.md", false);
               ("/main.txt", false)];
     denied := ["/data/repos/alpha/src/secret.txt"; "/data/repos/alpha/src/locked.md"];
     listing := ["alpha"];
     configFile := inl "config.json" |}.

Definition exampleWorld : @World (unix exampleConfig) :=
  world exampleConfig exampleDisk (CmdOutput "done").

(** The state [main] reaches on the example: [alpha] is watched. *)
Definition exampleState : @State (unix exampleConfig) :=
  match main exampleWorld with
  | Watching st | Exited st | Aborted _ st => st
  end.

Definition mainTxt : Event :=
  {| Name := "/data/repos/alpha/src/main.txt"; Op := Write |}.

(** The same installation with a pattern that does not compile. *)
Definition brokenConfig : watcherConfig :=
  {| ReposRoot := "/data/repos"; WatchPath := "src";
     WatchRegexp := "("; Execute := "make" |}.

Definition brokenWorld : @World (unix brokenConfig) :=
  world brokenConfig exampleDisk (CmdOutput "done").

(** The configuration loaded and nothing watched yet. *)
Definition startState : @State (unix exampleConfig) :=
  set_watcherRegexp (Some {| Match := fun b => contains b "txt" |})
    (set_config exampleConfig initial).

(** The disk after [alpha] has been deleted, and after [beta] has appeared
    with a file that fails at start. *)
Definition goneDisk : Disk :=
  {| files := [("/data/repos", true)];
     denied := [];
     listing := [];
     configFile := inl "config.json" |}.

Definition goneWorld : @World (unix exampleConfig) :=
  world exampleConfig goneDisk (CmdOutput "done").


(** A remove reported together with an attribute change. *)
Definition alphaRemoved : Event :=
  {| Name := "/data/repos/alpha"; Op := N.lor Remove Chmod |}.

Definition secretTxt : Event :=
  {| Name := "/data/repos/alpha/src/secret.txt"; Op := Write |}.

Definition notesMd : Event :=
  {| Name := "/data/repos/alpha/src/notes.md"; Op := Write |}.

Definition lockedMd : Event :=
  {| Name := "/data/repos/alpha/src/locked.md"; Op := Write |}.

(** A root of three parts and a file in a directory of three parts. *)
Definition deepConfig : watcherConfig :=
  {| ReposRoot := "/srv/git/repos"; WatchPath := "src";
     WatchRegexp := "txt"; Execute := "make" |}.

Definition shallowDisk : Disk :=
  {| files := [("/tmp/work/src/a.txt", false)];
     denied := [];
     listing := [];
     configFile := inl "config.json" |}.

(** ** Vocabulary of the further properties *)

(** [strings.IndexByte(s, c) >= 0] *)
Fixpoint containsByte (s : string) (c : ascii) : bool :=
  match s with
  | EmptyString => false
  | String a rest => Ascii.eqb a c || containsByte rest c
  end.

(** [filepath.IsAbs(path)] on Unix: the path begins with the separator. *)
Definition IsAbs (path : string) : bool :=
  match path with
  | String a _ => Ascii.eqb a PathSeparator
  | EmptyString => false
  end.

(** A path element: not empty and without separator. *)
Definition element (s : string) : Prop :=
  s <> EmptyString /\ containsByte s PathSeparator = false.

(** The path made of [parts], absolute or relative. *)
Definition pathOf (absolute : bool) (parts : list string) : string :=
  (if absolute then separator else EmptyString) +:+ Strings.Join parts separator.

(** The parts of a path as [processEvent] computes them, as a list. *)
Definition partsOf (path : string) : list string :=
  filter (fun e => 0 < String.length e) (Strings.Split path PathSeparator).

(** The state an outcome carries. *)
Definition stateOf `{Platform} (o : Outcome) : State :=
  match o with
  | Returned st | Panicked _ st => st
  end.

(** A schedule made of deliveries from [watcher.Events] only. *)
Definition fileOnly `{Platform} (schedule : list (World * Delivery)) : Prop :=
  Forall (fun step => exists event, snd step = FromWatcher event) schedule.

(** The lines of a log at error level. *)
Definition errorLines (lines : list (logType * string)) : list string :=
  omap (fun line => match fst line with
                    | logError => Some (snd line)
                    | logInfo => None
                    end) lines.

(** An installation with a relative root. *)
Definition relativeConfig : watcherConfig :=
  {| ReposRoot := "repos"; WatchPath := "src";
     WatchRegexp := "txt"; Execute := "make" |}.

Definition relativeDisk : Disk :=
  {| files := [("repos", true); ("repos/alpha", true); ("repos/alpha/src", true);
               ("repos/beta", true); ("repos/beta/docs", true);
               ("repos/README", false);
               ("repos/alpha/src/lib/main.txt", false)];
     denied := [];
     listing := ["alpha"; "beta"; "README"];
     configFile := inl "config.json" |}.

Definition relativeWorld : @World (unix relativeConfig) :=
  world relativeConfig relativeDisk (CmdOutput "done").

Definition relativeStart : @State (unix relativeConfig) :=
  set_watcherRegexp (Some {| Match := fun b => contains b "txt" |})
    (set_config relativeConfig initial).


(** * Properties *)

Example Split_root : Strings.Split "/data/repos" PathSeparator = [EmptyString; "data"; "repos"].
Proof. reflexivity. Qed.

Example Split_file :
  Filepath.Split "/data/repos/alpha/src/main.txt" = ("/data/repos/alpha/src/", "main.txt").
Proof. reflexivity. Qed.

Example Split_bare : Filepath.Split "main.txt" = (EmptyString, "main.txt").
Proof. reflexivity. Qed.

Example Clean_dots : Filepath.CleanUnix "./repos//alpha/../beta/" = "repos/beta".
Proof. reflexivity. Qed.

Example Clean_rooted : Filepath.CleanUnix "/../data/./repos/" = "/data/repos".
Proof. reflexivity. Qed.

Example Clean_empty : Filepath.CleanUnix EmptyString = ".".
Proof. reflexivity. Qed.

(** ** Slices *)

Section Slices.

Context `{Platform}.

Local Abbreviation keep :=
  (fun result element =>
     if decide (0 < String.length element) then append result element else result).

Lemma filterEmptyParts_foldl (elements : list string) :
  filterEmptyParts elements = foldl keep emptySlice elements.
Proof. reflexivity. Qed.

Lemma keep_elems (acc : slice) (elements : list string) :
  elems (foldl keep acc elements)
  = elems acc ++ filter (fun e => 0 < String.length e) elements.
Proof.
  revert acc. induction elements as [|e rest IH]; intros acc; simpl.
  - by rewrite app_nil_r.
  - rewrite IH, filter_cons.
    destruct (decide (0 < String.length e)); simpl; [|done].
    by rewrite <- app_assoc.
Qed.

Lemma append_fits (s : slice) (x : string) :
  len s <= cap s -> len (append s x) <= cap (append s x).
Proof.
  intros Hs. unfold append, len in *; simpl. rewrite length_app; simpl.
  destruct (decide (length (elems s) + 1 <= cap s)) as [Hle|Hgt].
  - exact Hle.
  - apply growcap_fits.
Qed.

Lemma keep_fits (acc : slice) (elements : list string) :
  len acc <= cap acc -> len (foldl keep acc elements) <= cap (foldl keep acc elements).
Proof.
  revert acc. induction elements as [|e rest IH]; intros acc Hacc; simpl; [done|].
  apply IH. destruct (decide (0 < String.length e)); [|done].
  by apply append_fits.
Qed.

(** The parts kept are the non-empty elements, in order. *)
Lemma filterEmptyParts_elems (elements : list string) :
  elems (filterEmptyParts elements) = filter (fun e => 0 < String.length e) elements.
Proof. rewrite filterEmptyParts_foldl, keep_elems. reflexivity. Qed.

(** The length of the result never exceeds its capacity. *)
Lemma filterEmptyParts_fits (elements : list string) :
  len (filterEmptyParts elements) <= cap (filterEmptyParts elements).
Proof. rewrite filterEmptyParts_foldl. apply keep_fits. simpl. unfold len. simpl. lia. Qed.

(** Within the length, [s[:high]] is the first [high] elements. *)
Lemma sliceTo_within (s : slice) (high : nat) :
  high <= len s -> len s <= cap s -> sliceTo s high = Some (take high (elems s)).
Proof.
  intros Hh Hs. unfold sliceTo. destruct (decide (high <= cap s)); [|lia].
  f_equal. apply take_app_le. exact Hh.
Qed.

End Slices.

(** ** The file-event handler on the examples *)

(** C1 (the code differs): on the event for [/data/repos/alpha/src/main.txt],
    an existing regular file whose base name matches, the handler runs the
    command once, in the directory made of the first
    [len(reposRootParts)+1] parts of the event's directory joined by the
    separator.  That string is [data/repos/alpha]: the leading separator of
    the root is lost with the empty parts, so the working directory is not
    the repository root [/data/repos/alpha]. *)
Theorem alpha_event_runs_in_relative_directory :
  let reposRootParts :=
    @filterEmptyParts (unix exampleConfig) (Strings.Split "/data/repos" PathSeparator) in
  let dirPathParts :=
    @filterEmptyParts (unix exampleConfig)
      (Strings.Split (fst (Filepath.Split (Name mainTxt))) PathSeparator) in
  main exampleWorld = Watching exampleState /\
  diskStat exampleDisk (Name mainTxt) = FileInfo false /\
  (exists re, watcherRegexp exampleState = Some re /\
              Match re (snd (Filepath.Split (Name mainTxt))) = true) /\
  exists st',
    processEvent exampleWorld mainTxt exampleState = Returned st' /\
    executed st'
      = [("make", Strings.Join (take (len reposRootParts + 1) (elems dirPathParts)) separator)] /\
    executed st' = [("make", "data/repos/alpha")] /\
    "data/repos/alpha" <> "/data/repos/alpha".
Proof.
  cbv zeta. split; [reflexivity|]. split; [reflexivity|].
  split; [eexists; split; reflexivity|].
  eexists. split; [vm_compute; reflexivity|].
  split; [reflexivity|]. split; [reflexivity|]. discriminate.
Qed.

(** C2: the slice expression [dirPathParts[:len(reposRootParts)+1]] can be
    out of range.  Whatever capacities [append] chooses, there is an event
    for an existing regular file with a matching base name, in a directory
    with fewer than [len(reposRootParts)+1] parts, on which [processEvent]
    panics at the slice expression instead of returning. *)
Theorem slice_out_of_range_reachable `{Platform} :
  exists (w : World) (event : Event) (st : State) (re : Regexp),
    Stat w (Name event) = FileInfo false /\
    watcherRegexp st = Some re /\
    Match re (snd (Filepath.Split (Name event))) = true /\
    let reposRootParts :=
      filterEmptyParts (Strings.Split (ReposRoot (config st)) PathSeparator) in
    let dirPathParts :=
      filterEmptyParts (Strings.Split (fst (Filepath.Split (Name event))) PathSeparator) in
    len dirPathParts < len reposRootParts + 1 /\
    processEvent w event st
      = Panicked (SliceBoundsOutOfRange (len reposRootParts + 1) (cap dirPathParts)) st.
Proof.
  set (re := {| Match := fun b => contains b "txt" |}).
  exists (bareWorld (fun name => if bool_decide (name = "/main.txt") then FileInfo false
                                 else ErrNotExist)),
         {| Name := "/main.txt"; Op := Write |},
         (set_watcherRegexp (Some re) (set_config exampleConfig initial)),
         re.
  split; [reflexivity|]. split; [reflexivity|]. split; [reflexivity|].
  cbv zeta. split.
  - unfold len. rewrite !filterEmptyParts_elems. vm_compute. lia.
  - reflexivity.
Qed.

(** ** Start-up *)

Section Startup.

Context `{Platform}.

Lemma isDirectory_true (r : StatResult) : isDirectory r = true <-> r = FileInfo true.
Proof. destruct r as [[]| |]; simpl; split; congruence. Qed.

Lemma addRepo_config (w : World) (path : string) (st : State) :
  config (addRepo w path st) = config st.
Proof.
  unfold addRepo. repeat case_match; reflexivity.
Qed.

Lemma addRepo_watcherRegexp (w : World) (path : string) (st : State) :
  watcherRegexp (addRepo w path st) = watcherRegexp st.
Proof.
  unfold addRepo. repeat case_match; reflexivity.
Qed.

Lemma removeRepo_config (w : World) (path : string) (st : State) :
  config (removeRepo w path st) = config st.
Proof.
  unfold removeRepo. repeat case_match; reflexivity.
Qed.

Lemma population_watcherRegexp (w : World) (root : string) (names : list string) (st : State) :
  watcherRegexp (foldl (fun st file => addRepo w (root +:+ "/" +:+ file) st) st names)
  = watcherRegexp st.
Proof.
  revert st. induction names as [|n rest IH]; intros st; simpl; [done|].
  rewrite IH. apply addRepo_watcherRegexp.
Qed.

Lemma addRepo_logged (w : World) (path : string) (st : State) (line : logType * string) :
  line ∈ logged st -> line ∈ logged (addRepo w path st).
Proof.
  intros Hin. unfold addRepo. repeat case_match; try done.
  simpl. apply elem_of_app. by left.
Qed.

Lemma population_logged (w : World) (root : string) (names : list string) (st : State)
    (line : logType * string) :
  line ∈ logged st ->
  line ∈ logged (foldl (fun st file => addRepo w (root +:+ "/" +:+ file) st) st names).
Proof.
  revert st. induction names as [|n rest IH]; intros st Hin; simpl; [done|].
  apply IH. by apply addRepo_logged.
Qed.

Lemma checkError_config (e : option string) (st : State) :
  config (checkError e st) = config st.
Proof. by destruct e. Qed.

(** [checkError] only logs: when the pattern of the decoded configuration
    does not compile and the root is a directory that can be registered,
    [main] reaches the watch loops with no pattern. *)
Lemma main_continues_without_pattern (w : World) (msg : string) :
  let data := match ReadFile w "config.json" with inl d => d | inr _ => EmptyString end in
  let c := fst (Unmarshal data) in
  Compile (WatchRegexp c) = inr msg ->
  Stat w (ReposRoot c) = FileInfo true ->
  snd (WatcherAdd w (ReposRoot c) NewWatcher) = None ->
  exists st, main w = Watching st /\ watcherRegexp st = None /\
             (logError, msg) ∈ logged st.
Proof.
  cbv zeta. intros Hc Hs Ha. unfold main.
  set (data := match ReadFile w "config.json" with inl d => d | inr _ => EmptyString end) in *.
  assert (Hd : (match ReadFile w "config.json" with
                | inl d => (d, None)
                | inr m => (EmptyString, Some m)
                end).1 = data) by (subst data; by destruct (ReadFile w _)).
  destruct (match ReadFile w "config.json" with
            | inl d => (d, None)
            | inr m => (EmptyString, Some m)
            end) as [data' rerr]; simpl in Hd; subst data'.
  destruct (Unmarshal data) as [c uerr]; simpl in *.
  rewrite checkError_config; simpl. rewrite Hc.
  unfold watchRepos.
  destruct uerr, rerr; simpl; rewrite Hs;
    (destruct (WatcherAdd w (ReposRoot c) NewWatcher) as [rw err]; simpl in Ha; subst err;
     eexists; split; [reflexivity|]; split;
     [by rewrite population_watcherRegexp
     |apply population_logged; simpl; set_solver]).
Qed.

End Startup.

(** C3 (the code differs): with the pattern [(], which does not compile,
    [main] logs the error and goes on: it reaches the watch loops with
    [watcherRegexp] nil and the repository [alpha] watched, and the first
    event for a regular file then ends the process with a nil dereference. *)
Theorem broken_pattern_reaches_watch_loops :
  @Compile (unix brokenConfig) (WatchRegexp brokenConfig) = inr "error parsing regexp: missing closing ): `(`" /\
  exists st,
    main brokenWorld = Watching st /\
    watcherRegexp st = None /\
    logged st = [(logInfo, "Starting repos watcher...");
                 (logError, "error parsing regexp: missing closing ): `(`");
                 (logInfo, "[RepoWatch] Adding repo: /data/repos/alpha")] /\
    is_Some (currentlyWatching st !! "/data/repos/alpha") /\
    processEvent brokenWorld mainTxt st = Panicked NilDereference st.
Proof.
  split; [reflexivity|]. eexists. split; [vm_compute; reflexivity|].
  split; [reflexivity|]. split; [reflexivity|]. split; [|reflexivity].
  vm_compute. eexists. reflexivity.
Qed.

(** ** The repository set *)

Section RepoSet.

Context `{Platform}.

(** The watch sub-path of a repository, as [addRepo] and [removeRepo]
    compute it. *)
Local Abbreviation targetPath st cleanPath :=
  (Clean (cleanPath +:+ "/" +:+ WatchPath (config st))).

Lemma addRepo_unqualified (w : World) (path : string) (st : State) :
  Stat w (Clean path) <> FileInfo true \/
  Stat w (targetPath st (Clean path)) <> FileInfo true ->
  addRepo w path st = st.
Proof.
  intros Hno. unfold addRepo.
  destruct (isDirectory (Stat w (Clean path))) eqn:Hd; simpl; [|done].
  destruct (isDirectory (Stat w (targetPath st (Clean path)))) eqn:Ht; simpl; [|done].
  apply isDirectory_true in Hd, Ht. tauto.
Qed.

Lemma addRepo_member (w : World) (path : string) (st : State) :
  is_Some (currentlyWatching st !! Clean path) -> addRepo w path st = st.
Proof.
  intros [b Hb]. unfold addRepo. rewrite Hb. repeat case_match; reflexivity.
Qed.

(** What a successful add does. *)
Lemma addRepo_fresh (w : World) (path : string) (st : State) :
  Stat w (Clean path) = FileInfo true ->
  Stat w (targetPath st (Clean path)) = FileInfo true ->
  currentlyWatching st !! Clean path = None ->
  addRepo w path st
  = set_currentlyWatching (<[Clean path := true]> (currentlyWatching st))
      (set_watcher (fst (WatcherAdd w (targetPath st (Clean path)) (watcher st)))
         (log logInfo ("[RepoWatch] Adding repo: " +:+ Clean path) st)).
Proof.
  intros Hd Ht Hm. unfold addRepo. rewrite Hd; simpl. rewrite Ht; simpl.
  rewrite Hm. reflexivity.
Qed.

Lemma addRepo_inserts (w : World) (path : string) (st : State) (p : string) :
  currentlyWatching st !! p = None ->
  is_Some (currentlyWatching (addRepo w path st) !! p) ->
  Clean path = p /\ Stat w p = FileInfo true /\
  Stat w (targetPath st p) = FileInfo true.
Proof.
  intros Hp Hin. unfold addRepo in Hin.
  destruct (isDirectory (Stat w (Clean path))) eqn:Hd; simpl in Hin;
    [|rewrite Hp in Hin; by destruct Hin].
  destruct (isDirectory (Stat w (targetPath st (Clean path)))) eqn:Ht; simpl in Hin;
    [|rewrite Hp in Hin; by destruct Hin].
  destruct (currentlyWatching st !! Clean path) eqn:Hm;
    [rewrite Hp in Hin; by destruct Hin|].
  simpl in Hin. destruct (decide (Clean path = p)) as [Heq|Hne].
  - apply isDirectory_true in Hd, Ht. rewrite Heq in Hd, Ht. by repeat split.
  - rewrite lookup_insert_ne, Hp in Hin by done. by destruct Hin.
Qed.

Lemma removeRepo_never_inserts (w : World) (path : string) (st : State) (p : string) :
  currentlyWatching st !! p = None ->
  currentlyWatching (removeRepo w path st) !! p = None.
Proof.
  intros Hp. unfold removeRepo.
  destruct (currentlyWatching st !! Clean path); simpl; [|done].
  destruct (decide (Clean path = p)) as [->|Hne].
  - apply lookup_delete_eq.
  - by rewrite lookup_delete_ne.
Qed.

Lemma perform_config (w : World) (op : RepoOp) (st : State) :
  config (perform w op st) = config st.
Proof. destruct op; simpl; [apply addRepo_config|apply removeRepo_config]. Qed.

Lemma applyAll_snoc (ops : list (World * RepoOp)) (step : World * RepoOp) (st : State) :
  applyAll (ops ++ [step]) st = perform (fst step) (snd step) (applyAll ops st).
Proof. unfold applyAll. by rewrite foldl_snoc. Qed.

Lemma applyAll_config (ops : list (World * RepoOp)) (st : State) :
  config (applyAll ops st) = config st.
Proof.
  induction ops as [|step ops IH] using rev_ind; [done|].
  by rewrite applyAll_snoc, perform_config.
Qed.

(** C4: membership only ever grows by an add whose two checks passed in the
    world of that very call.  (1) An add attempt on a path that is not a
    directory, or whose watch sub-path is not one, changes nothing: no
    membership, no subscription, no log line.  (2) Whenever one operation
    of the set turns a non-member [p] into a member, the operation is an add
    of a path that cleans to [p], and both [p] and [p/<watchPath>] are
    directories in the world the operation ran in.  (3) Hence after any
    sequence of adds and removes, each in its own world, every member was
    either there from the start or inserted by such a checked add. *)
Theorem membership_checked_at_insertion :
  (forall (w : World) (path : string) (st : State),
     Stat w (Clean path) <> FileInfo true \/
     Stat w (targetPath st (Clean path)) <> FileInfo true ->
     addRepo w path st = st) /\
  (forall (w : World) (op : RepoOp) (st : State) (p : string),
     currentlyWatching st !! p = None ->
     is_Some (currentlyWatching (perform w op st) !! p) ->
     exists path, op = TryAdd path /\ Clean path = p /\
       Stat w p = FileInfo true /\ Stat w (targetPath st p) = FileInfo true) /\
  (forall (ops : list (World * RepoOp)) (st : State) (p : string),
     is_Some (currentlyWatching (applyAll ops st) !! p) ->
     is_Some (currentlyWatching st !! p) \/
     exists before w path after,
       ops = before ++ (w, TryAdd path) :: after /\
       currentlyWatching (applyAll before st) !! p = None /\
       Clean path = p /\
       Stat w p = FileInfo true /\ Stat w (targetPath st p) = FileInfo true).
Proof.
  assert (Hstep : forall (w : World) (op : RepoOp) (st : State) (p : string),
     currentlyWatching st !! p = None ->
     is_Some (currentlyWatching (perform w op st) !! p) ->
     exists path, op = TryAdd path /\ Clean path = p /\
       Stat w p = FileInfo true /\ Stat w (targetPath st p) = FileInfo true).
  { intros w [path|path] st p Hp Hin; simpl in Hin.
    - exists path. split; [done|]. by apply addRepo_inserts.
    - rewrite (removeRepo_never_inserts w path st p Hp) in Hin. by destruct Hin. }
  split; [exact addRepo_unqualified|]. split; [exact Hstep|].
  intros ops. induction ops as [|[w op] ops IH] using rev_ind; intros st p Hin.
  - by left.
  - rewrite applyAll_snoc in Hin. simpl in Hin.
    destruct (currentlyWatching (applyAll ops st) !! p) as [b|] eqn:Hb.
    + destruct (IH st p) as [Hst|(before & w' & path & after & -> & Hrest)].
      * rewrite Hb. by eexists.
      * by left.
      * right. exists before, w', path, (after ++ [(w, op)]).
        split; [by rewrite <- app_assoc|exact Hrest].
    + destruct (Hstep w op _ p Hb Hin) as (path & -> & Hc & Hd & Ht).
      right. exists ops, w, path, []. rewrite applyAll_config in Ht. done.
Qed.

(** C5: adding is idempotent.  For every path, a second [addRepo] in the
    same world gives the state of the first: same membership map, same
    watcher subscriptions, same log.  When the path qualified at the first
    call it is a member afterwards, and a second call changes nothing
    whatever the file system has become.  Adding a path that is already
    watched, or one that does not qualify, returns the state unchanged, so
    nothing is logged. *)
Theorem addRepo_idempotent (w w' : World) (path : string) (st : State) :
  addRepo w path (addRepo w path st) = addRepo w path st /\
  (Stat w (Clean path) = FileInfo true ->
   Stat w (targetPath st (Clean path)) = FileInfo true ->
   is_Some (currentlyWatching (addRepo w path st) !! Clean path) /\
   addRepo w' path (addRepo w path st) = addRepo w path st) /\
  (is_Some (currentlyWatching st !! Clean path) -> addRepo w path st = st) /\
  (Stat w (Clean path) <> FileInfo true \/
   Stat w (targetPath st (Clean path)) <> FileInfo true ->
   addRepo w path st = st).
Proof.
  assert (Hmem : Stat w (Clean path) = FileInfo true ->
                 Stat w (targetPath st (Clean path)) = FileInfo true ->
                 is_Some (currentlyWatching (addRepo w path st) !! Clean path)).
  { intros Hd Ht. destruct (currentlyWatching st !! Clean path) as [b|] eqn:Hm.
    - rewrite addRepo_member by (rewrite Hm; by eexists). rewrite Hm. by eexists.
    - rewrite addRepo_fresh by done. simpl. rewrite lookup_insert_eq. by eexists. }
  split; [|split; [|split]].
  - destruct (isDirectory (Stat w (Clean path))) eqn:Hd.
    + destruct (isDirectory (Stat w (targetPath st (Clean path)))) eqn:Ht.
      * apply isDirectory_true in Hd, Ht. apply addRepo_member. by apply Hmem.
      * rewrite (addRepo_unqualified w path st); [apply addRepo_unqualified|];
          right; intros Hs; apply isDirectory_true in Hs; congruence.
    + rewrite (addRepo_unqualified w path st); [apply addRepo_unqualified|];
        left; intros Hs; apply isDirectory_true in Hs; congruence.
  - intros Hd Ht. split; [by apply Hmem|]. apply addRepo_member. by apply Hmem.
  - apply addRepo_member.
  - apply addRepo_unqualified.
Qed.

(** C6: removing a path that is not a member is a no-op.  Membership is
    looked up under the cleaned path, as [removeRepo] does; when the cleaned
    path is not a key of [currentlyWatching] the whole state is returned as
    it was: membership, watcher subscriptions and log (no removal line). *)
Theorem removeRepo_non_member (w : World) (path : string) (st : State) :
  currentlyWatching st !! Clean path = None ->
  removeRepo w path st = st.
Proof. intros Hm. unfold removeRepo. by rewrite Hm. Qed.

(** What removing a member does. *)
Lemma removeRepo_member (w : World) (path : string) (st : State) :
  is_Some (currentlyWatching st !! Clean path) ->
  removeRepo w path st
  = set_currentlyWatching (delete (Clean path) (currentlyWatching st))
      (set_watcher (fst (WatcherRemove w (targetPath st (Clean path)) (watcher st)))
         (log logInfo ("[RepoWatch] Removing repo: " +:+ Clean path) st)).
Proof. intros [b Hb]. unfold removeRepo. by rewrite Hb. Qed.

(** ** The root-level loop *)

(** C8 (as the code has it): the tests of [processReposEvent] are tried in
    order and the first that succeeds decides.  An event whose [Op] has the
    create bit or the chmod bit is an add of the event path; otherwise, one
    whose [Op] has the rename bit or the remove bit is a remove of the event
    path; an event with none of the four bits leaves the state unchanged.
    In particular an event of exactly one kind is handled by that kind. *)
Theorem processReposEvent_first_match (w : World) (event : Event) (st : State) :
  let has := fun op => N.land (Op event) op = op in
  (has Create \/ has Chmod ->
   processReposEvent w event st = addRepo w (Name event) st) /\
  (~ has Create -> ~ has Chmod -> has Rename \/ has Remove ->
   processReposEvent w event st = removeRepo w (Name event) st) /\
  (~ has Create -> ~ has Chmod -> ~ has Rename -> ~ has Remove ->
   processReposEvent w event st = st) /\
  (Op event = Create \/ Op event = Chmod ->
   processReposEvent w event st = addRepo w (Name event) st) /\
  (Op event = Rename \/ Op event = Remove ->
   processReposEvent w event st = removeRepo w (Name event) st) /\
  (Op event = Write -> processReposEvent w event st = st).
Proof.
  cbv zeta. unfold processReposEvent.
  repeat split.
  - intros [Hc|Hc]; rewrite Hc.
    + by rewrite N.eqb_refl.
    + rewrite N.eqb_refl. by destruct (N.eqb _ _).
  - intros Hc Hm [Hr|Hr].
    + apply N.eqb_neq in Hc, Hm. rewrite Hc, Hm, Hr, N.eqb_refl. done.
    + apply N.eqb_neq in Hc, Hm. rewrite Hc, Hm, Hr, N.eqb_refl.
      by destruct (N.eqb (N.land (Op event) Rename) Rename).
  - intros Hc Hm Hr Hv. apply N.eqb_neq in Hc, Hm, Hr, Hv.
    by rewrite Hc, Hm, Hr, Hv.
  - intros [-> | ->]; reflexivity.
  - intros [-> | ->]; reflexivity.
  - intros ->; reflexivity.
Qed.

End RepoSet.

(** ** The file-level loop *)

Section FileEvents.

Context `{Platform}.

(** The state an outcome carries. *)
Local Abbreviation stateOf o :=
  (match o with Returned st | Panicked _ st => st end).

(** C7: what [processEvent] rejects.  (1) An event whose path does not
    exist or is a directory is dropped, the state is returned unchanged,
    whether or not the base name matches and even without a compiled
    pattern.  (2) An event whose base name fails the pattern is dropped in
    the same way whether its path exists (as a file or as a directory) or
    not.  (3) Whatever [os.Stat] answers, an event whose base name fails
    the pattern starts no command, writes no log line and leaves membership
    and subscriptions alone. *)
Theorem processEvent_rejects (w : World) (event : Event) (st : State) :
  (Stat w (Name event) = ErrNotExist \/ Stat w (Name event) = FileInfo true ->
   processEvent w event st = Returned st) /\
  (forall re : Regexp,
     watcherRegexp st = Some re ->
     Match re (snd (Filepath.Split (Name event))) = false ->
     (Stat w (Name event) = ErrNotExist \/
      exists IsDir, Stat w (Name event) = FileInfo IsDir) ->
     processEvent w event st = Returned st) /\
  (forall re : Regexp,
     watcherRegexp st = Some re ->
     Match re (snd (Filepath.Split (Name event))) = false ->
     stateOf (processEvent w event st) = st).
Proof.
  assert (Hfile : forall re : Regexp,
             watcherRegexp st = Some re ->
             Match re (snd (Filepath.Split (Name event))) = false ->
             Stat w (Name event) = FileInfo false ->
             processEvent w event st = Returned st).
  { intros re Hre Hno Hs. unfold processEvent. rewrite Hs.
    destruct (Filepath.Split (Name event)) as [dir baseName]. simpl in Hno.
    by rewrite Hre, Hno. }
  split; [|split].
  - unfold processEvent. by intros [-> | ->].
  - intros re Hre Hno [Hs|[[] Hs]].
    + unfold processEvent. by rewrite Hs.
    + unfold processEvent. by rewrite Hs.
    + by apply (Hfile re).
  - intros re Hre Hno.
    destruct (Stat w (Name event)) as [[]| |msg] eqn:Hs.
    + unfold processEvent. by rewrite Hs.
    + by rewrite (Hfile re).
    + unfold processEvent. by rewrite Hs.
    + unfold processEvent. by rewrite Hs.
Qed.

(** A slice expression above the capacity panics. *)
Lemma processEvent_slice_panics (w : World) (event : Event) (st : State) (re : Regexp) :
  let reposRootParts :=
    filterEmptyParts (Strings.Split (ReposRoot (config st)) PathSeparator) in
  let dirPathParts :=
    filterEmptyParts (Strings.Split (fst (Filepath.Split (Name event))) PathSeparator) in
  Stat w (Name event) = FileInfo false ->
  watcherRegexp st = Some re ->
  Match re (snd (Filepath.Split (Name event))) = true ->
  cap dirPathParts < len reposRootParts + 1 ->
  processEvent w event st
  = Panicked (SliceBoundsOutOfRange (len reposRootParts + 1) (cap dirPathParts)) st.
Proof.
  cbv zeta. intros Hs Hre Hyes Hcap.
  unfold processEvent. rewrite Hs.
  destruct (Filepath.Split (Name event)) as [dir baseName]; simpl in *.
  rewrite Hre, Hyes; simpl. unfold sliceTo.
  destruct (decide _) as [Hle|Hgt]; [lia|reflexivity].
Qed.


(** C10: an [os.Stat] error other than not-exist is not skipped.  On every
    event whose path [os.Stat] cannot examine for another reason, the nil
    [FileInfo] is dereferenced and [processEvent] panics before anything
    else happens; so whenever [processEvent] returns, [os.Stat] succeeded or
    reported that the path does not exist.  [watchRepos] does the same with
    the repository root. *)
Theorem stat_error_dereferences_nil (w : World) :
  (forall (event : Event) (st : State) (msg : string),
     Stat w (Name event) = ErrOther msg ->
     processEvent w event st = Panicked NilDereference st) /\
  (forall (event : Event) (st st' : State),
     processEvent w event st = Returned st' ->
     Stat w (Name event) = ErrNotExist \/
     exists IsDir, Stat w (Name event) = FileInfo IsDir) /\
  (forall (reposRoot : string) (st : State) (msg : string),
     Stat w reposRoot = ErrOther msg ->
     watchRepos w reposRoot st = Aborted NilDereference st).
Proof.
  split; [|split].
  - intros event st msg Hs. unfold processEvent. by rewrite Hs.
  - intros event st st' Hret. unfold processEvent in Hret.
    destruct (Stat w (Name event)) as [d| |msg]; [right; by exists d|by left|discriminate].
  - intros reposRoot st msg Hs. unfold watchRepos. by rewrite Hs.
Qed.

End FileEvents.

(** ** The theorems on the examples *)

(** C4 on the example: an add of the deleted [alpha] changes nothing, the
    add of [/data/repos/alpha/] into the empty set passed both checks, and
    so did the insertion found in a trace of an add and a remove. *)
Lemma membership_checked_at_insertion_witness :
  addRepo goneWorld "/data/repos/alpha" startState = startState /\
  (exists path,
     TryAdd "/data/repos/alpha/" = TryAdd path /\
     Filepath.CleanUnix path = "/data/repos/alpha" /\
     diskStat exampleDisk "/data/repos/alpha" = FileInfo true /\
     diskStat exampleDisk (Filepath.CleanUnix ("/data/repos/alpha" +:+ "/" +:+ "src"))
       = FileInfo true) /\
  (is_Some (currentlyWatching startState !! "/data/repos/alpha") \/
   exists before w path after,
     [(exampleWorld, TryAdd "/data/repos/alpha/"); (goneWorld, TryRemove "/data/repos/beta")]
       = before ++ (w, TryAdd path) :: after /\
     currentlyWatching (applyAll before startState) !! "/data/repos/alpha" = None /\
     Filepath.CleanUnix path = "/data/repos/alpha" /\
     Stat w "/data/repos/alpha" = FileInfo true /\
     Stat w (Filepath.CleanUnix ("/data/repos/alpha" +:+ "/" +:+ "src")) = FileInfo true).
Proof.
  destruct (@membership_checked_at_insertion (unix exampleConfig)) as (Hcheck & Hstep & Hall).
  split; [|split].
  - apply Hcheck. left. vm_compute. discriminate.
  - apply (Hstep exampleWorld (TryAdd "/data/repos/alpha/") startState "/data/repos/alpha").
    + reflexivity.
    + vm_compute. eexists. reflexivity.
  - apply (Hall [(exampleWorld, TryAdd "/data/repos/alpha/");
                 (goneWorld, TryRemove "/data/repos/beta")] startState "/data/repos/alpha").
    vm_compute. eexists. reflexivity.
Defined.

(** C5 on the example: [alpha] added twice, added again after it was
    deleted, added while watched; [beta], which does not exist, added. *)
Lemma addRepo_idempotent_witness :
  addRepo exampleWorld "/data/repos/alpha/"
    (addRepo exampleWorld "/data/repos/alpha/" startState)
  = addRepo exampleWorld "/data/repos/alpha/" startState /\
  (is_Some (currentlyWatching (addRepo exampleWorld "/data/repos/alpha/" startState)
              !! "/data/repos/alpha") /\
   addRepo goneWorld "/data/repos/alpha/"
     (addRepo exampleWorld "/data/repos/alpha/" startState)
   = addRepo exampleWorld "/data/repos/alpha/" startState) /\
  addRepo exampleWorld "/data/repos/alpha" exampleState = exampleState /\
  addRepo exampleWorld "/data/repos/beta" exampleState = exampleState.
Proof.
  destruct (addRepo_idempotent exampleWorld goneWorld "/data/repos/alpha/" startState)
    as (Htwice & Hlater & _ & _).
  destruct (addRepo_idempotent exampleWorld goneWorld "/data/repos/alpha" exampleState)
    as (_ & _ & Hmember & _).
  destruct (addRepo_idempotent exampleWorld goneWorld "/data/repos/beta" exampleState)
    as (_ & _ & _ & Hunqualified).
  split; [exact Htwice|]. split; [apply Hlater; reflexivity|]. split.
  - apply Hmember. vm_compute. eexists. reflexivity.
  - apply Hunqualified. left. vm_compute. discriminate.
Defined.

(** C6 on the example: [beta] was never watched. *)
Lemma removeRepo_non_member_witness :
  removeRepo goneWorld "/data/repos/beta/" exampleState = exampleState.
Proof. apply removeRepo_non_member. reflexivity. Defined.

(** C7 on the example: a deleted file, an existing file whose base name
    fails the pattern, and such a file that cannot be examined. *)
Lemma processEvent_rejects_witness :
  processEvent goneWorld mainTxt exampleState = Returned exampleState /\
  processEvent exampleWorld notesMd exampleState = Returned exampleState /\
  match processEvent exampleWorld lockedMd exampleState with
  | Returned st | Panicked _ st => st
  end = exampleState.
Proof.
  destruct (processEvent_rejects goneWorld mainTxt exampleState) as (Hgone & _ & _).
  destruct (processEvent_rejects exampleWorld notesMd exampleState) as (_ & Hfails & _).
  destruct (processEvent_rejects exampleWorld lockedMd exampleState) as (_ & _ & Hquiet).
  split; [|split].
  - apply Hgone. left. reflexivity.
  - apply (Hfails {| Match := fun b => contains b "txt" |}).
    + reflexivity.
    + reflexivity.
    + right. exists false. reflexivity.
  - apply (Hquiet {| Match := fun b => contains b "txt" |}); reflexivity.
Defined.

(** C8, as stated, fails: the event reports a remove of the watched
    repository [alpha] together with an attribute change.  It is a remove
    event, yet [processReposEvent] takes the chmod branch and calls
    [addRepo], which finds no directory and returns: [alpha] stays a member,
    where [removeRepo] would have dropped it. *)
Lemma remove_with_chmod_keeps_member :
  N.land (Op alphaRemoved) Remove = Remove /\
  processReposEvent goneWorld alphaRemoved exampleState = exampleState /\
  is_Some (currentlyWatching exampleState !! "/data/repos/alpha") /\
  currentlyWatching (removeRepo goneWorld (Name alphaRemoved) exampleState)
    !! "/data/repos/alpha" = None /\
  processReposEvent goneWorld alphaRemoved exampleState
  <> removeRepo goneWorld (Name alphaRemoved) exampleState.
Proof.
  split; [reflexivity|]. split; [reflexivity|].
  split; [vm_compute; eexists; reflexivity|]. split; [reflexivity|].
  intros Heq.
  apply (f_equal (fun st => currentlyWatching st !! "/data/repos/alpha")) in Heq.
  vm_compute in Heq. discriminate.
Qed.

(** C8 on the example: remove with chmod is an add, a plain remove is a
    remove, a write is ignored. *)
Lemma processReposEvent_first_match_witness :
  processReposEvent goneWorld alphaRemoved exampleState
  = addRepo goneWorld "/data/repos/alpha" exampleState /\
  processReposEvent goneWorld {| Name := "/data/repos/alpha"; Op := Remove |} exampleState
  = removeRepo goneWorld "/data/repos/alpha" exampleState /\
  processReposEvent goneWorld {| Name := "/data/repos/alpha"; Op := Write |} exampleState
  = exampleState.
Proof.
  destruct (processReposEvent_first_match goneWorld alphaRemoved exampleState)
    as (Hadd & _).
  destruct (processReposEvent_first_match goneWorld
              {| Name := "/data/repos/alpha"; Op := Remove |} exampleState)
    as (_ & Hremove & _).
  destruct (processReposEvent_first_match goneWorld
              {| Name := "/data/repos/alpha"; Op := Write |} exampleState)
    as (_ & _ & Hnone & _).
  split; [|split].
  - apply Hadd. right. reflexivity.
  - apply Hremove; [vm_compute; discriminate|vm_compute; discriminate|right; reflexivity].
  - apply Hnone; vm_compute; discriminate.
Defined.



(** C10 on the example: a file and a root that cannot be examined. *)
Lemma stat_error_dereferences_nil_witness :
  processEvent exampleWorld secretTxt exampleState = Panicked NilDereference exampleState /\
  (diskStat exampleDisk (Name notesMd) = ErrNotExist \/
   exists IsDir, diskStat exampleDisk (Name notesMd) = FileInfo IsDir) /\
  watchRepos exampleWorld "/data/repos/alpha/src/secret.txt" startState
  = Aborted NilDereference startState.
Proof.
  destruct (stat_error_dereferences_nil exampleWorld) as (Hevent & Hreturns & Hroot).
  split; [|split].
  - apply (Hevent secretTxt exampleState
             "stat /data/repos/alpha/src/secret.txt: permission denied").
    reflexivity.
  - apply (Hreturns notesMd exampleState exampleState). reflexivity.
  - apply (Hroot "/data/repos/alpha/src/secret.txt" startState
             "stat /data/repos/alpha/src/secret.txt: permission denied").
    reflexivity.
Defined.

(** A slice expression above the length but within the capacity does not
    panic: with a root of three parts and a directory of three parts, whose
    slice has capacity four after doubling, the fourth part is the zero
    value and the command runs in a directory that is not a repository. *)
Example slice_above_length_within_capacity :
  let w := world deepConfig shallowDisk (CmdOutput "done") in
  let st := set_watcherRegexp (Some {| Match := fun b => contains b "txt" |})
              (set_config deepConfig (@initial (unix deepConfig))) in
  exists st',
    processEvent w {| Name := "/tmp/work/src/a.txt"; Op := Write |} st = Returned st' /\
    executed st' = [("make", "tmp/work/src/")].
Proof. cbv zeta. eexists. split; [vm_compute; reflexivity|reflexivity]. Qed.

(** * Further properties *)

(** ** Splitting and joining *)

Lemma Split_nonempty (s : string) (c : ascii) : Strings.Split s c <> [].
Proof.
  destruct s as [|a rest]; simpl; [done|].
  destruct (Ascii.eqb a c); [done|]. by destruct (Strings.Split rest c).
Qed.

Lemma Join_cons (e : string) (rest : list string) (sep : string) :
  rest <> [] -> Strings.Join (e :: rest) sep = e +:+ sep +:+ Strings.Join rest sep.
Proof. by destruct rest. Qed.

Lemma append_String (x : ascii) (a b : string) : String x a +:+ b = String x (a +:+ b).
Proof. reflexivity. Qed.

Lemma append_empty_l (a : string) : EmptyString +:+ a = a.
Proof. reflexivity. Qed.

Lemma append_assoc (a b c : string) : (a +:+ b) +:+ c = a +:+ (b +:+ c).
Proof.
  induction a as [|x a IH]; [done|]. rewrite !append_String. by rewrite IH.
Qed.

Lemma append_empty_r (a : string) : a +:+ EmptyString = a.
Proof. induction a as [|x a IH]; [done|]. rewrite append_String. by rewrite IH. Qed.

Lemma Join_snoc (l : list string) (e sep : string) :
  l <> [] -> Strings.Join (l ++ [e]) sep = Strings.Join l sep +:+ sep +:+ e.
Proof.
  induction l as [|x l IH]; [done|]. intros _.
  destruct l as [|y l]; [reflexivity|].
  change ((x :: y :: l) ++ [e]) with (x :: ((y :: l) ++ [e])).
  rewrite Join_cons by done. rewrite IH by done.
  rewrite (Join_cons x (y :: l)) by done. by rewrite !append_assoc.
Qed.

(** Splitting distributes over a separator. *)
Lemma Split_app (s t : string) (c : ascii) :
  Strings.Split (s +:+ String c t) c = Strings.Split s c ++ Strings.Split t c.
Proof.
  induction s as [|a s IH]; rewrite ?append_String, ?append_empty_l; simpl.
  - by rewrite Ascii.eqb_refl.
  - destruct (Ascii.eqb a c); [by rewrite IH|].
    rewrite IH. pose proof (Split_nonempty s c) as Hne.
    by destruct (Strings.Split s c).
Qed.

Lemma Split_without (s : string) (c : ascii) :
  containsByte s c = false -> Strings.Split s c = [s].
Proof.
  induction s as [|a s IH]; simpl; [done|]. intros Hno.
  apply orb_false_iff in Hno as [Ha Hs]. rewrite Ha, (IH Hs). done.
Qed.

Lemma Split_pieces_without (s : string) (c : ascii) :
  Forall (fun piece => containsByte piece c = false) (Strings.Split s c).
Proof.
  induction s as [|a s IH]; simpl.
  - by repeat constructor.
  - destruct (Ascii.eqb a c) eqn:Ha; [by constructor|].
    pose proof (Split_nonempty s c) as Hne.
    destruct (Strings.Split s c) as [|piece pieces]; [done|].
    inversion IH; subst. constructor; [|done]. simpl. by rewrite Ha.
Qed.

(** X1: joining the pieces of a split with the separator gives the string
    back, whatever the string. *)
Theorem Join_Split_round_trip (s : string) (c : ascii) :
  Strings.Join (Strings.Split s c) (String c EmptyString) = s.
Proof.
  induction s as [|a s IH]; simpl; [done|].
  pose proof (Split_nonempty s c) as Hne.
  destruct (Ascii.eqb a c) eqn:Ha.
  - apply Ascii.eqb_eq in Ha as ->. rewrite Join_cons by done.
    by rewrite append_empty_l, append_String, append_empty_l, IH.
  - destruct (Strings.Split s c) as [|piece pieces]; [done|].
    destruct pieces as [|q pieces].
    + simpl in *. by rewrite IH.
    + rewrite Join_cons by done. rewrite Join_cons in IH by done.
      by rewrite append_String, IH.
Qed.

(** X2: splitting a join of pieces that hold no separator gives the pieces
    back, empty pieces included; the only exception is the empty list, whose
    join is the empty string, which splits into one empty piece. *)
Theorem Split_Join_round_trip (pieces : list string) (c : ascii) :
  Forall (fun piece => containsByte piece c = false) pieces ->
  Strings.Split (Strings.Join pieces (String c EmptyString)) c
  = match pieces with
    | [] => [EmptyString]
    | _ => pieces
    end.
Proof.
  induction pieces as [|p rest IH]; intros Hall; [reflexivity|].
  inversion Hall as [|? ? Hp Hrest]; subst.
  destruct rest as [|q rest].
  - simpl. by apply Split_without.
  - rewrite Join_cons by done. rewrite append_String, append_empty_l.
    rewrite Split_app, (Split_without p c Hp), (IH Hrest). done.
Qed.

Lemma Filepath_Split_without (file : string) :
  containsByte file PathSeparator = false -> Filepath.Split file = (EmptyString, file).
Proof.
  induction file as [|a file IH]; simpl; [done|]. intros Hno.
  apply orb_false_iff in Hno as [Ha Hfile]. by rewrite (IH Hfile), Ha.
Qed.

Lemma Filepath_Split_app (dir file : string) :
  containsByte file PathSeparator = false ->
  Filepath.Split (dir +:+ separator +:+ file) = (dir +:+ separator, file).
Proof.
  intros Hfile. induction dir as [|a dir IH].
  - rewrite !append_empty_l. unfold separator. rewrite append_String, append_empty_l.
    simpl. by rewrite (Filepath_Split_without file Hfile), ?Ascii.eqb_refl.
  - rewrite !append_String. simpl. rewrite IH.
    destruct dir; [unfold separator; by rewrite append_empty_l|by rewrite append_String].
Qed.

(** X3: [filepath.Split] cuts after the last separator.  Its results are the
    only way to write the path as [dir] followed by [file] where [file]
    holds no separator and [dir] is empty or ends with one. *)
Theorem Filepath_Split_characterised (path dir file : string) :
  Filepath.Split path = (dir, file) <->
  dir +:+ file = path /\
  containsByte file PathSeparator = false /\
  (dir = EmptyString \/ exists before, dir = before +:+ separator).
Proof.
  split.
  - revert dir file. induction path as [|a path IH]; intros dir file Hsplit.
    + simpl in Hsplit. injection Hsplit as <- <-. split; [done|]. split; [done|by left].
    + simpl in Hsplit. destruct (Filepath.Split path) as [d f].
      destruct (IH d f eq_refl) as (Happ & Hf & Hd).
      destruct d as [|x d].
      * destruct (Ascii.eqb a PathSeparator) eqn:Ha; injection Hsplit as <- <-.
        -- apply Ascii.eqb_eq in Ha as ->. rewrite append_empty_l in Happ. subst f.
           split; [done|]. split; [done|]. right. by exists EmptyString.
        -- rewrite append_empty_l in *. subst f. split; [done|].
           split; [simpl; by rewrite Ha, Hf|by left].
      * injection Hsplit as <- <-. split; [by rewrite append_String, Happ|].
        split; [done|]. right. destruct Hd as [Hd|[before Hd]]; [done|].
        exists (String a before). by rewrite append_String, Hd.
  - intros (<- & Hf & [->|[before ->]]).
    + rewrite append_empty_l. by apply Filepath_Split_without.
    + rewrite append_assoc. by apply Filepath_Split_app.
Qed.

(** ** The parts of a path *)

Lemma partsOf_app (s t : string) :
  partsOf (s +:+ separator +:+ t) = partsOf s ++ partsOf t.
Proof. unfold partsOf, separator. by rewrite append_String, append_empty_l, Split_app, filter_app. Qed.

Lemma partsOf_element (p : string) : element p -> partsOf p = [p].
Proof.
  intros [Hne Hno]. unfold partsOf. rewrite (Split_without p _ Hno).
  rewrite filter_cons, filter_nil.
  destruct (decide (0 < String.length p)) as [|Hn]; [done|].
  destruct p; simpl in Hn; [done|lia].
Qed.

Lemma partsOf_Join (parts : list string) :
  Forall element parts -> partsOf (Strings.Join parts separator) = parts.
Proof.
  induction parts as [|p rest IH]; intros Hall; [reflexivity|].
  inversion Hall as [|? ? Hp Hrest]; subst. destruct rest as [|q rest].
  - by apply partsOf_element.
  - rewrite Join_cons by done. rewrite partsOf_app, (partsOf_element p Hp), (IH Hrest). done.
Qed.

Lemma partsOf_pathOf (absolute : bool) (parts : list string) :
  Forall element parts -> partsOf (pathOf absolute parts) = parts.
Proof.
  intros Hall. unfold pathOf. destruct absolute.
  - rewrite <- (append_empty_l (separator +:+ _)). rewrite partsOf_app.
    by rewrite (partsOf_Join parts Hall).
  - rewrite append_empty_l. by apply partsOf_Join.
Qed.

Lemma partsOf_elements (path : string) : Forall element (partsOf path).
Proof.
  unfold partsOf. pose proof (Split_pieces_without path PathSeparator) as Hall.
  induction Hall as [|piece pieces Hpiece Hall IH]; [constructor|].
  rewrite filter_cons. destruct (decide _) as [Hlen|]; [|done].
  constructor; [|done]. split; [|done]. intros ->. simpl in Hlen. lia.
Qed.

(** ** More on the file-event handler *)

Section FileEventsFurther.

Context `{Platform}.

Local Abbreviation keep :=
  (fun result element =>
     if decide (0 < String.length element) then append result element else result).

Lemma keep_nothing (acc : slice) (elements : list string) :
  elems (foldl keep acc elements) = [] -> cap (foldl keep acc elements) = cap acc.
Proof.
  revert acc. induction elements as [|e rest IH]; intros acc Hnil; simpl in *; [done|].
  destruct (decide (0 < String.length e)).
  - rewrite keep_elems in Hnil. simpl in Hnil. by destruct (elems acc).
  - by apply IH.
Qed.

Lemma filterEmptyParts_parts (path : string) :
  elems (filterEmptyParts (Strings.Split path PathSeparator)) = partsOf path.
Proof. apply filterEmptyParts_elems. Qed.

Lemma filterEmptyParts_nothing (elements : list string) :
  elems (filterEmptyParts elements) = [] -> cap (filterEmptyParts elements) = 0.
Proof.
  intros Hnil. rewrite filterEmptyParts_foldl in *.
  by rewrite (keep_nothing emptySlice elements Hnil).
Qed.

(** X4: [filterEmptyParts] keeps exactly the non-empty elements, in their
    order.  No element of the result is empty, the result is never longer
    than its capacity, its capacity is zero exactly when nothing was kept,
    and filtering the result again keeps all of it. *)
Theorem filterEmptyParts_result (elements : list string) :
  let result := filterEmptyParts elements in
  elems result = filter (fun e => 0 < String.length e) elements /\
  Forall (fun e => e <> EmptyString) (elems result) /\
  len result <= cap result /\
  (cap result = 0 <-> elems result = []) /\
  elems (filterEmptyParts (elems result)) = elems result.
Proof.
  cbv zeta. pose proof (filterEmptyParts_fits elements) as Hfits.
  split; [apply filterEmptyParts_elems|]. split; [|split; [done|split]].
  - rewrite filterEmptyParts_elems. apply Forall_forall. intros e He.
    apply list_elem_of_filter in He as [Hlen _]. intros ->. simpl in Hlen. lia.
  - split.
    + intros Hcap. unfold len in Hfits. rewrite Hcap in Hfits.
      destruct (elems (filterEmptyParts elements)); [done|simpl in Hfits; lia].
    + apply filterEmptyParts_nothing.
  - rewrite !filterEmptyParts_elems. apply list_filter_filter_l. done.
Qed.

(** The state after a command has been started and has ended. *)
Local Abbreviation ran w st repoPath :=
  (match Output w (Execute (config st)) repoPath with
   | CmdError err =>
       log logError err
         (start (Execute (config st)) repoPath
            (log logInfo (execMessage (Execute (config st)) repoPath) st))
   | CmdOutput output =>
       log logInfo output
         (start (Execute (config st)) repoPath
            (log logInfo (execMessage (Execute (config st)) repoPath) st))
   end).

(** Every way through [processEvent]. *)
Lemma processEvent_cases (w : World) (event : Event) (st : State) :
  let dirPathParts :=
    filterEmptyParts (Strings.Split (fst (Filepath.Split (Name event))) PathSeparator) in
  let high :=
    len (filterEmptyParts (Strings.Split (ReposRoot (config st)) PathSeparator)) + 1 in
  (processEvent w event st = Returned st /\
   (Stat w (Name event) = ErrNotExist \/ Stat w (Name event) = FileInfo true \/
    Stat w (Name event) = FileInfo false /\
    exists re, watcherRegexp st = Some re /\
               Match re (snd (Filepath.Split (Name event))) = false)) \/
  (processEvent w event st = Panicked NilDereference st /\
   ((exists msg, Stat w (Name event) = ErrOther msg) \/
    Stat w (Name event) = FileInfo false /\ watcherRegexp st = None)) \/
  (processEvent w event st = Panicked (SliceBoundsOutOfRange high (cap dirPathParts)) st /\
   Stat w (Name event) = FileInfo false /\
   (exists re, watcherRegexp st = Some re /\
               Match re (snd (Filepath.Split (Name event))) = true) /\
   cap dirPathParts < high) \/
  (exists parts,
     processEvent w event st = Returned (ran w st (Strings.Join parts separator)) /\
     Stat w (Name event) = FileInfo false /\
     (exists re, watcherRegexp st = Some re /\
                 Match re (snd (Filepath.Split (Name event))) = true) /\
     sliceTo dirPathParts high = Some parts).
Proof.
  cbv zeta. unfold processEvent.
  destruct (Stat w (Name event)) as [[]| |msg].
  - left. split; [done|]. right. by left.
  - destruct (Filepath.Split (Name event)) as [dir baseName]; simpl.
    destruct (watcherRegexp st) as [re|].
    + destruct (Match re baseName) eqn:Hm; simpl.
      * destruct (sliceTo _ _) as [parts|] eqn:Hslice.
        -- right. right. right. exists parts.
           split; [by destruct (Output w _ _)|]. split; [done|].
           split; [by exists re|done].
        -- right. right. left. split; [done|]. split; [done|].
           split; [by exists re|]. unfold sliceTo in Hslice.
           destruct (decide _); [done|lia].
      * left. split; [done|]. right. right. split; [done|]. by exists re.
    + right. left. split; [done|]. right. done.
  - left. split; [done|]. by left.
  - right. left. split; [done|]. left. by exists msg.
Qed.

Lemma processEvent_keeps_repo_set (w : World) (event : Event) (st : State) :
  currentlyWatching (stateOf (processEvent w event st)) = currentlyWatching st /\
  watcher (stateOf (processEvent w event st)) = watcher st.
Proof.
  destruct (processEvent_cases w event st)
    as [[-> _]|[[-> _]|[[-> _]|(parts & -> & _)]]]; simpl; try done.
  by destruct (Output w _ _).
Qed.

Lemma element_not_absolute (p rest : string) :
  element p -> IsAbs (p +:+ rest) = false /\ p +:+ rest <> EmptyString.
Proof.
  intros [Hne Hno]. destruct p as [|a p]; [done|].
  rewrite append_String. simpl in *. apply orb_false_iff in Hno as [Ha _]. done.
Qed.

(** X5: the directory the command runs in.  Let the root be the path of the
    elements [rootParts], absolute or relative, and let the event be for the
    regular file [file] lying, any number of directories deep, in the
    repository [repo] under that root.  If the base name matches, the command
    is started once, in the path made of [rootParts] and [repo] joined by the
    separator and without a leading separator: the repository itself for a
    relative root, a path relative to the working directory of the process
    for an absolute one. *)
Theorem processEvent_repository_path (w : World) (event : Event) (st : State)
    (re : Regexp) (absolute : bool) (rootParts sub : list string) (repo file : string) :
  Forall element rootParts -> element repo -> Forall element sub ->
  containsByte file PathSeparator = false ->
  ReposRoot (config st) = pathOf absolute rootParts ->
  Name event = pathOf absolute ((rootParts ++ repo :: sub) ++ [file]) ->
  Stat w (Name event) = FileInfo false ->
  watcherRegexp st = Some re ->
  Match re file = true ->
  exists st',
    processEvent w event st = Returned st' /\
    executed st'
    = executed st ++ [(Execute (config st), pathOf false (rootParts ++ [repo]))].
Proof.
  intros Hroot Hrepo Hsub Hfile Hcfg Hname Hs Hre Hm.
  assert (Hall : Forall element (rootParts ++ repo :: sub)).
  { apply Forall_app. split; [done|]. by constructor. }
  assert (Hsplit : Filepath.Split (Name event)
                   = (pathOf absolute (rootParts ++ repo :: sub) +:+ separator, file)).
  { rewrite Hname. unfold pathOf. rewrite Join_snoc by (by destruct rootParts).
    rewrite <- (append_assoc _ _ (separator +:+ file)).
    rewrite <- append_assoc. rewrite (append_assoc _ separator file).
    by apply Filepath_Split_app. }
  assert (Hdir : elems (filterEmptyParts
                   (Strings.Split (pathOf absolute (rootParts ++ repo :: sub) +:+ separator)
                      PathSeparator)) = rootParts ++ repo :: sub).
  { rewrite filterEmptyParts_parts.
    rewrite <- (append_empty_r (_ +:+ separator)), append_assoc, partsOf_app.
    rewrite (partsOf_pathOf _ _ Hall). apply app_nil_r. }
  assert (Hrootparts : elems (filterEmptyParts
                   (Strings.Split (pathOf absolute rootParts) PathSeparator)) = rootParts).
  { rewrite filterEmptyParts_parts. by apply partsOf_pathOf. }
  unfold processEvent. rewrite Hs, Hsplit, Hre, Hm. simpl. rewrite Hcfg.
  rewrite sliceTo_within; [| |apply filterEmptyParts_fits].
  - unfold len. rewrite Hdir, Hrootparts.
    replace (take (length rootParts + 1) (rootParts ++ repo :: sub))
      with (rootParts ++ [repo]).
    + unfold pathOf. rewrite append_empty_l.
      destruct (Output w _ _); eexists; (split; [reflexivity|]); done.
    + rewrite take_app_ge by lia.
      replace (length rootParts + 1 - length rootParts) with 1 by lia. done.
  - unfold len. rewrite Hdir, Hrootparts, length_app. simpl. lia.
Qed.

(** X6: the command never runs in an absolute directory.  Whenever
    [processEvent] returns, it has either started nothing or started the
    configured command once, in a directory that is not empty and does not
    begin with the separator. *)
Theorem processEvent_directory_never_absolute (w : World) (event : Event) (st st' : State) :
  processEvent w event st = Returned st' ->
  executed st' = executed st \/
  exists dir,
    executed st' = executed st ++ [(Execute (config st), dir)] /\
    IsAbs dir = false /\ dir <> EmptyString.
Proof.
  intros Hret.
  destruct (processEvent_cases w event st)
    as [[Heq _]|[[Heq _]|[[Heq _]|(parts & Heq & _ & _ & Hslice)]]];
    rewrite Heq in Hret; try discriminate.
  - injection Hret as <-. by left.
  - injection Hret as <-. right. exists (Strings.Join parts separator).
    split; [by destruct (Output w _ _)|].
    unfold sliceTo in Hslice. destruct (decide _) as [Hcap|]; [|done].
    injection Hslice as <-.
    pose proof (filterEmptyParts_nothing
                  (Strings.Split (Filepath.Split (Name event)).1 PathSeparator))
      as Hzero.
    rewrite filterEmptyParts_parts in *.
    pose proof (partsOf_elements (Filepath.Split (Name event)).1) as Hel.
    destruct (partsOf (Filepath.Split (Name event)).1) as [|p rest] eqn:Hparts.
    { rewrite Hzero in Hcap by done. lia. }
    inversion Hel as [|? ? Hp _]; subst.
    assert (Htake : forall n (l : list string), take (n + 1) (p :: l) = p :: take n l)
      by (intros n l; by rewrite Nat.add_comm).
    rewrite <- app_comm_cons, Htake. clear Heq.
    match goal with |- context [p :: take ?n ?l] => generalize (take n l) end.
    intros [|q more].
    + change (Strings.Join [p] separator) with p.
      rewrite <- (append_empty_r p). by apply element_not_absolute.
    + rewrite Join_cons by done. by apply element_not_absolute.
Qed.

(** X7: when [processEvent] panics.  It panics in exactly three situations:
    [os.Stat] fails with an error other than not-exist; the path is a regular
    file and no pattern was compiled; the path is a regular file, the base
    name matches and the capacity of [dirPathParts] is below
    [len(reposRootParts)+1].  A panic happens before any effect: the state
    is the one the handler started from.  In particular an event for a
    matching regular file whose directory has no part at all (a bare name, or
    a file directly under the file-system root) always panics. *)
Theorem processEvent_panics_exactly (w : World) (event : Event) (st : State) :
  let dir := fst (Filepath.Split (Name event)) in
  let baseName := snd (Filepath.Split (Name event)) in
  let dirPathParts := filterEmptyParts (Strings.Split dir PathSeparator) in
  let high :=
    len (filterEmptyParts (Strings.Split (ReposRoot (config st)) PathSeparator)) + 1 in
  ((exists p st', processEvent w event st = Panicked p st') <->
   (exists msg, Stat w (Name event) = ErrOther msg) \/
   Stat w (Name event) = FileInfo false /\
   (watcherRegexp st = None \/
    exists re, watcherRegexp st = Some re /\ Match re baseName = true /\
               cap dirPathParts < high)) /\
  (forall p st', processEvent w event st = Panicked p st' -> st' = st) /\
  (forall re,
     Stat w (Name event) = FileInfo false ->
     watcherRegexp st = Some re ->
     Match re baseName = true ->
     partsOf dir = [] ->
     processEvent w event st = Panicked (SliceBoundsOutOfRange high 0) st).
Proof.
  cbv zeta.
  pose proof (processEvent_cases w event st) as Hcases. cbv zeta in Hcases.
  split; [|split].
  - split.
    + intros (p & st' & Hp).
      destruct Hcases as [[Heq _]|[[_ Hwhy]|[(_ & Hs & (re & Hre & Hm) & Hcap)
                                           |(parts & Heq & _)]]].
      * rewrite Heq in Hp. discriminate.
      * destruct Hwhy as [Hmsg|[Hs Hnone]]; [by left|right; split; [done|by left]].
      * right. split; [done|]. right. by exists re.
      * rewrite Heq in Hp. discriminate.
    + intros Hwhy.
      destruct Hcases as [[_ Hret]|[[Heq _]|[[Heq _]|(parts & _ & Hs & (re & Hre & Hm) & Hsl)]]].
      * exfalso. destruct Hwhy as [[msg Hmsg]|[Hs Hrest]].
        -- destruct Hret as [?|[?|[? _]]]; congruence.
        -- destruct Hret as [?|[?|[_ (re & Hre & Hm)]]]; [congruence|congruence|].
           destruct Hrest as [?|(re' & Hre' & Hm' & _)]; congruence.
      * by eexists _, _.
      * by eexists _, _.
      * exfalso. destruct Hwhy as [[msg Hmsg]|[_ [?|(re' & _ & _ & Hcap)]]];
          [congruence|congruence|].
        unfold sliceTo in Hsl. destruct (decide _); [lia|done].
  - intros p st' Hp.
    destruct Hcases as [[Heq _]|[[Heq _]|[[Heq _]|(parts & Heq & _)]]];
      rewrite Heq in Hp; congruence.
  - intros re Hs Hre Hm Hnone.
    pose proof (filterEmptyParts_nothing
                  (Strings.Split (Filepath.Split (Name event)).1 PathSeparator)) as Hzero.
    rewrite filterEmptyParts_parts in Hzero. specialize (Hzero Hnone).
    destruct Hcases as [[_ Hret]|[[_ Hwhy]|[[Heq _]|(parts & _ & _ & _ & Hsl)]]].
    + destruct Hret as [?|[?|[_ (re' & Hre' & Hm')]]]; congruence.
    + destruct Hwhy as [[msg ?]|[_ ?]]; congruence.
    + by rewrite Heq, Hzero.
    + unfold sliceTo in Hsl. rewrite Hzero in Hsl. destruct (decide _); [lia|done].
Qed.

(** X8: what a file event can change.  Whatever the outcome, [processEvent]
    leaves the configuration, the pattern, both watchers and the repository
    set as they were.  Either it adds nothing to the log and starts nothing,
    or it starts the configured command once and adds exactly two lines to
    the log: the announcement at info level, then the result of the
    command. *)
Theorem processEvent_effects (w : World) (event : Event) (st : State) :
  let st' := stateOf (processEvent w event st) in
  config st' = config st /\
  watcherRegexp st' = watcherRegexp st /\
  reposWatcher st' = reposWatcher st /\
  watcher st' = watcher st /\
  currentlyWatching st' = currentlyWatching st /\
  (executed st' = executed st /\ logged st' = logged st \/
   exists dir line,
     executed st' = executed st ++ [(Execute (config st), dir)] /\
     logged st' = logged st ++ [(logInfo, execMessage (Execute (config st)) dir); line] /\
     ((exists output,
         Output w (Execute (config st)) dir = CmdOutput output /\ line = (logInfo, output)) \/
      (exists err,
         Output w (Execute (config st)) dir = CmdError err /\ line = (logError, err)))).
Proof.
  cbv zeta.
  destruct (processEvent_cases w event st)
    as [[-> _]|[[-> _]|[[-> _]|(parts & -> & _)]]]; simpl;
    try (repeat split; try done; by left).
  destruct (Output w _ _) as [output|err] eqn:Hout; simpl;
    (repeat split; try done); right;
    exists (Strings.Join parts separator); eexists;
    (split; [done|]); (split; [by rewrite <- app_assoc|]).
  - left. by exists output.
  - right. by exists err.
Qed.

(** X9: the handler never consults the repository set.  Replacing the
    membership map and the inner watcher by any others gives the same
    outcome, with the same log lines and the same command: an event under a
    repository that has been removed, or was never watched, is handled like
    any other. *)
Theorem processEvent_ignores_repo_set (w : World) (event : Event) (st : State)
    (members : gmap string bool) (subscriptions : Watcher) :
  processEvent w event (set_currentlyWatching members (set_watcher subscriptions st))
  = match processEvent w event st with
    | Returned st' =>
        Returned (set_currentlyWatching members (set_watcher subscriptions st'))
    | Panicked p st' =>
        Panicked p (set_currentlyWatching members (set_watcher subscriptions st'))
    end.
Proof.
  unfold processEvent. simpl.
  destruct (Stat w (Name event)) as [[]| |msg]; try reflexivity.
  destruct (Filepath.Split (Name event)) as [dir baseName].
  destruct (watcherRegexp st) as [re|]; [|reflexivity].
  destruct (Match re baseName); simpl; [|reflexivity].
  destruct (sliceTo _ _); [|reflexivity].
  by destruct (Output w _ _).
Qed.

(** X10: the root is only counted.  [processEvent] uses [ReposRoot] through
    the number of its parts alone: with another root of as many parts (and
    the same command) every event has the same outcome, the same log lines
    and the same working directory.  The event path is never compared with
    the root. *)
Theorem processEvent_counts_root_parts (w : World) (event : Event) (st : State)
    (c : watcherConfig) :
  Execute c = Execute (config st) ->
  length (partsOf (ReposRoot c)) = length (partsOf (ReposRoot (config st))) ->
  processEvent w event (set_config c st)
  = match processEvent w event st with
    | Returned st' => Returned (set_config c st')
    | Panicked p st' => Panicked p (set_config c st')
    end.
Proof.
  intros Hexec Hlen. unfold processEvent. simpl.
  destruct (Stat w (Name event)) as [[]| |msg]; try reflexivity.
  destruct (Filepath.Split (Name event)) as [dir baseName].
  destruct (watcherRegexp st) as [re|]; [|reflexivity].
  destruct (Match re baseName); simpl; [|reflexivity].
  unfold len. rewrite !filterEmptyParts_parts, Hlen, Hexec.
  destruct (sliceTo _ _); [|reflexivity].
  by destruct (Output w _ _).
Qed.

(** X11: the file-level loop leaves the repository set alone.  After any
    schedule of deliveries from [watcher.Events], however it ends, membership
    and inner subscriptions are those it started with. *)
Theorem serve_file_events_keep_repo_set (schedule : list (World * Delivery)) (st : State) :
  fileOnly schedule ->
  currentlyWatching (stateOf (serve schedule st)) = currentlyWatching st /\
  watcher (stateOf (serve schedule st)) = watcher st.
Proof.
  intros Hfile. revert st.
  induction Hfile as [|[w d] rest [event Hd] _ IH]; intros st; [done|].
  simpl in Hd. subst d. simpl.
  pose proof (processEvent_keeps_repo_set w event st) as [Hm Hw].
  destruct (processEvent w event st) as [st'|p st']; simpl in *.
  - destruct (IH st') as [IHm IHw]. by rewrite IHm, IHw.
  - done.
Qed.

End FileEventsFurther.

(** ** More on the repository set *)

Section RepoSetFurther.

Context `{Platform}.

Local Abbreviation targetPath st cleanPath :=
  (Clean (cleanPath +:+ "/" +:+ WatchPath (config st))).

Local Abbreviation qualifies w st cleanPath :=
  (Stat w cleanPath = FileInfo true /\ Stat w (targetPath st cleanPath) = FileInfo true).

Lemma qualifies_dec (w : World) (st : State) (cleanPath : string) :
  qualifies w st cleanPath \/
  (Stat w cleanPath <> FileInfo true \/ Stat w (targetPath st cleanPath) <> FileInfo true).
Proof.
  destruct (isDirectory (Stat w cleanPath)) eqn:Hd;
    destruct (isDirectory (Stat w (targetPath st cleanPath))) eqn:Ht.
  - left. by split; apply isDirectory_true.
  - right. right. intros Hs. apply isDirectory_true in Hs. congruence.
  - right. left. intros Hs. apply isDirectory_true in Hs. congruence.
  - right. left. intros Hs. apply isDirectory_true in Hs. congruence.
Qed.

(** The membership map after an add and after a remove. *)
Lemma addRepo_membership (w : World) (path : string) (st : State) :
  currentlyWatching (addRepo w path st)
  = currentlyWatching st \/
  qualifies w st (Clean path) /\ currentlyWatching st !! Clean path = None /\
  currentlyWatching (addRepo w path st) = <[Clean path := true]> (currentlyWatching st).
Proof.
  destruct (qualifies_dec w st (Clean path)) as [[Hd Ht]|Hno].
  - destruct (currentlyWatching st !! Clean path) as [b|] eqn:Hm.
    + left. rewrite addRepo_member; [done|]. rewrite Hm. by eexists.
    + right. split; [done|]. split; [done|]. by rewrite addRepo_fresh.
  - left. by rewrite addRepo_unqualified.
Qed.

Lemma removeRepo_membership (w : World) (path : string) (st : State) :
  currentlyWatching (removeRepo w path st) = delete (Clean path) (currentlyWatching st).
Proof.
  unfold removeRepo. destruct (currentlyWatching st !! Clean path) eqn:Hm; simpl; [done|].
  by rewrite delete_id.
Qed.

Lemma addRepo_twice (w : World) (path : string) (st : State) :
  addRepo w path (addRepo w path st) = addRepo w path st.
Proof.
  destruct (qualifies_dec w st (Clean path)) as [[Hd Ht]|Hno].
  - apply addRepo_member.
    destruct (currentlyWatching st !! Clean path) as [b|] eqn:Hm.
    + rewrite addRepo_member by (rewrite Hm; by eexists). rewrite Hm. by eexists.
    + rewrite addRepo_fresh by done. simpl. rewrite lookup_insert_eq. by eexists.
  - rewrite (addRepo_unqualified w path st Hno). by apply addRepo_unqualified.
Qed.

Lemma removeRepo_twice (w w' : World) (path : string) (st : State) :
  removeRepo w' path (removeRepo w path st) = removeRepo w path st.
Proof.
  unfold removeRepo at 1. by rewrite removeRepo_membership, lookup_delete_eq.
Qed.

Lemma addRepo_after (w : World) (path : string) (st : State) :
  (is_Some (currentlyWatching (addRepo w path st) !! Clean path) <->
   is_Some (currentlyWatching st !! Clean path) \/ qualifies w st (Clean path)) /\
  (forall p, p <> Clean path ->
     currentlyWatching (addRepo w path st) !! p = currentlyWatching st !! p) /\
  (forall p, is_Some (currentlyWatching st !! p) ->
     is_Some (currentlyWatching (addRepo w path st) !! p)).
Proof.
  destruct (addRepo_membership w path st) as [Heq|(Hq & Hm & Heq)]; rewrite Heq.
  - split; [|split; [done|done]]. split; [by left|]. intros [Hin|Hq]; [done|].
    destruct (currentlyWatching st !! Clean path) as [b|] eqn:Hm; [by eexists|].
    rewrite addRepo_fresh in Heq by (done || apply Hq). simpl in Heq.
    apply (f_equal (fun m => m !! Clean path)) in Heq.
    rewrite lookup_insert_eq, Hm in Heq. discriminate.
  - split; [|split].
    + rewrite lookup_insert_eq. split; [by right|by eexists].
    + intros p Hp. by rewrite lookup_insert_ne.
    + intros p Hin. destruct (decide (p = Clean path)) as [->|Hp].
      * rewrite lookup_insert_eq. by eexists.
      * by rewrite lookup_insert_ne.
Qed.


(** X12: what an add leaves behind.  After [addRepo] the cleaned path is a
    member exactly when it was one before or when both the path and its
    watch sub-path are directories; no other key is touched; and no member
    is ever lost by an add. *)
Theorem addRepo_postcondition (w : World) (path : string) (st : State) :
  (is_Some (currentlyWatching (addRepo w path st) !! Clean path) <->
   is_Some (currentlyWatching st !! Clean path) \/ qualifies w st (Clean path)) /\
  (forall p, p <> Clean path ->
     currentlyWatching (addRepo w path st) !! p = currentlyWatching st !! p) /\
  (forall p, is_Some (currentlyWatching st !! p) ->
     is_Some (currentlyWatching (addRepo w path st) !! p)).
Proof. apply addRepo_after. Qed.

(** X13: what a remove leaves behind.  After [removeRepo] the cleaned path
    is not a member, whatever the file system looks like; no other key is
    touched; and a second remove of the same path, in any world, changes
    nothing at all. *)
Theorem removeRepo_postcondition (w w' : World) (path : string) (st : State) :
  currentlyWatching (removeRepo w path st) !! Clean path = None /\
  (forall p, p <> Clean path ->
     currentlyWatching (removeRepo w path st) !! p = currentlyWatching st !! p) /\
  removeRepo w' path (removeRepo w path st) = removeRepo w path st.
Proof.
  rewrite removeRepo_membership. split; [apply lookup_delete_eq|]. split.
  - intros p Hp. by rewrite lookup_delete_ne.
  - apply removeRepo_twice.
Qed.

(** X14: a repository that appears and disappears.  Adding a qualifying
    path that is not a member and then removing it gives back the membership
    map there was before; the log has gained the adding line followed by the
    removing line, and the inner watcher has been asked to add and then to
    remove the same watch sub-path. *)
Theorem add_then_remove (w w' : World) (path : string) (st : State) :
  currentlyWatching st !! Clean path = None ->
  Stat w (Clean path) = FileInfo true ->
  Stat w (targetPath st (Clean path)) = FileInfo true ->
  let st' := removeRepo w' path (addRepo w path st) in
  currentlyWatching st' = currentlyWatching st /\
  logged st' = logged st ++ [(logInfo, "[RepoWatch] Adding repo: " +:+ Clean path);
                             (logInfo, "[RepoWatch] Removing repo: " +:+ Clean path)] /\
  watcher st'
  = fst (WatcherRemove w' (targetPath st (Clean path))
           (fst (WatcherAdd w (targetPath st (Clean path)) (watcher st)))).
Proof.
  intros Hm Hd Ht. cbv zeta. rewrite addRepo_fresh by done.
  unfold removeRepo. simpl. rewrite lookup_insert_eq. simpl.
  split; [|split; [by rewrite <- app_assoc|done]].
  by rewrite delete_insert_eq, delete_id.
Qed.

(** X15: a repository that is removed and comes back.  Removing a member
    and adding the same path again while it qualifies gives back the
    membership map there was before. *)
Theorem remove_then_add (w w' : World) (path : string) (st : State) :
  currentlyWatching st !! Clean path = Some true ->
  Stat w' (Clean path) = FileInfo true ->
  Stat w' (targetPath st (Clean path)) = FileInfo true ->
  currentlyWatching (addRepo w' path (removeRepo w path st)) = currentlyWatching st.
Proof.
  intros Hm Hd Ht.
  rewrite addRepo_fresh; simpl.
  - rewrite removeRepo_membership, insert_delete_eq. by apply insert_id.
  - done.
  - by rewrite removeRepo_config.
  - by rewrite removeRepo_membership, lookup_delete_eq.
Qed.

(** What an operation of the set leaves alone. *)
Lemma perform_frame (w : World) (op : RepoOp) (st : State) :
  config (perform w op st) = config st /\
  watcherRegexp (perform w op st) = watcherRegexp st /\
  reposWatcher (perform w op st) = reposWatcher st /\
  executed (perform w op st) = executed st /\
  (logged (perform w op st) = logged st \/
   exists message, logged (perform w op st) = logged st ++ [(logInfo, message)]).
Proof.
  destruct op as [path|path]; simpl.
  - unfold addRepo. repeat case_match; simpl; repeat split; try done;
      try (by left); right; by eexists.
  - unfold removeRepo. repeat case_match; simpl; repeat split; try done;
      try (by left); right; by eexists.
Qed.

Lemma perform_values (w : World) (op : RepoOp) (st : State) :
  (forall p b, currentlyWatching st !! p = Some b -> b = true) ->
  forall p b, currentlyWatching (perform w op st) !! p = Some b -> b = true.
Proof.
  intros Hinv p b. destruct op as [path|path]; simpl.
  - destruct (addRepo_membership w path st) as [->|(_ & _ & ->)]; [apply Hinv|].
    destruct (decide (p = Clean path)) as [->|Hp].
    + rewrite lookup_insert_eq. congruence.
    + rewrite lookup_insert_ne by done. apply Hinv.
  - rewrite removeRepo_membership.
    destruct (decide (p = Clean path)) as [->|Hp].
    + by rewrite lookup_delete_eq.
    + rewrite lookup_delete_ne by done. apply Hinv.
Qed.

Lemma processReposEvent_perform (w : World) (event : Event) (st : State) :
  processReposEvent w event st = st \/
  exists op, processReposEvent w event st = perform w op st.
Proof.
  unfold processReposEvent. repeat case_match; try (by left); right;
    [exists (TryAdd (Name event))|exists (TryAdd (Name event))
    |exists (TryRemove (Name event))|exists (TryRemove (Name event))]; done.
Qed.

(** X16: every value stored in the membership map is [true].  The property
    holds at start and is kept by every delivery, from either channel, along
    any schedule and whatever the outcome. *)
Theorem membership_values_true (schedule : list (World * Delivery)) (st : State) :
  (forall p b, currentlyWatching st !! p = Some b -> b = true) ->
  (forall p b, currentlyWatching initial !! p = Some b -> b = true) /\
  (forall p b, currentlyWatching (stateOf (serve schedule st)) !! p = Some b -> b = true).
Proof.
  intros Hinv. split; [intros p b; simpl; by rewrite lookup_empty|].
  revert st Hinv. induction schedule as [|[w d] rest IH]; intros st Hinv; [exact Hinv|].
  simpl. destruct d as [event|event]; simpl.
  - apply IH. destruct (processReposEvent_perform w event st) as [->|[op ->]]; [done|].
    by apply perform_values.
  - pose proof (processEvent_keeps_repo_set w event st) as [Hm _].
    destruct (processEvent w event st) as [st'|p st']; simpl in *.
    + apply IH. by rewrite Hm.
    + by rewrite Hm.
Qed.

(** X17: a root-level event never starts a command and never touches the
    configuration, the pattern or the root watcher; it adds at most one line
    to the log, at info level. *)
Theorem processReposEvent_effects (w : World) (event : Event) (st : State) :
  let st' := processReposEvent w event st in
  config st' = config st /\
  watcherRegexp st' = watcherRegexp st /\
  reposWatcher st' = reposWatcher st /\
  executed st' = executed st /\
  (logged st' = logged st \/
   exists message, logged st' = logged st ++ [(logInfo, message)]).
Proof.
  cbv zeta. destruct (processReposEvent_perform w event st) as [->|[op ->]].
  - repeat split; by left.
  - apply perform_frame.
Qed.

(** X18: a root-level event delivered twice.  Handling the same event a
    second time in the same world changes nothing: duplicate deliveries are
    harmless. *)
Theorem processReposEvent_idempotent (w : World) (event : Event) (st : State) :
  processReposEvent w event (processReposEvent w event st) = processReposEvent w event st.
Proof.
  unfold processReposEvent.
  repeat case_match; try done; apply addRepo_twice || apply removeRepo_twice.
Qed.

Lemma addRepo_membership_added (w : World) (path : string) (st : State) :
  currentlyWatching (addRepo w path st)
  = if isDirectory (Stat w (Clean path))
       && isDirectory (Stat w (targetPath st (Clean path)))
    then match currentlyWatching st !! Clean path with
         | Some _ => currentlyWatching st
         | None => <[Clean path := true]> (currentlyWatching st)
         end
    else currentlyWatching st.
Proof.
  unfold addRepo.
  destruct (isDirectory (Stat w (Clean path))); simpl; [|done].
  destruct (isDirectory (Stat w _)); simpl; [|done].
  by destruct (currentlyWatching st !! Clean path).
Qed.

(** X19: operations on different repositories do not interfere.  If the
    paths of two operations clean to different keys, the membership map after
    both does not depend on their order, each in its own world. *)
Theorem perform_commutes_on_membership (w1 w2 : World) (op1 op2 : RepoOp) (st : State) :
  let key := fun op => match op with TryAdd path | TryRemove path => Clean path end in
  key op1 <> key op2 ->
  currentlyWatching (perform w1 op1 (perform w2 op2 st))
  = currentlyWatching (perform w2 op2 (perform w1 op1 st)).
Proof.
  cbv zeta. intros Hne.
  destruct op1 as [p1|p1], op2 as [p2|p2]; simpl in *;
    rewrite ?addRepo_membership_added, ?removeRepo_membership,
            ?addRepo_config, ?removeRepo_config,
            ?addRepo_membership_added, ?removeRepo_membership.
  - destruct (isDirectory (Stat w1 (Clean p1)) && _), (isDirectory (Stat w2 (Clean p2)) && _);
      try done.
    destruct (currentlyWatching st !! Clean p1) eqn:H1,
             (currentlyWatching st !! Clean p2) eqn:H2;
      rewrite ?lookup_insert_ne, ?H1, ?H2 by done; try done.
    by apply insert_insert_ne.
  - destruct (isDirectory (Stat w1 (Clean p1)) && _); [|done].
    rewrite lookup_delete_ne by done.
    destruct (currentlyWatching st !! Clean p1); [done|].
    symmetry. by apply delete_insert_ne.
  - destruct (isDirectory (Stat w2 (Clean p2)) && _); [|done].
    rewrite lookup_delete_ne by done.
    destruct (currentlyWatching st !! Clean p2); [done|].
    by apply delete_insert_ne.
  - apply delete_delete.
Qed.

End RepoSetFurther.

(** ** More on the start-up *)

Section StartupFurther.

Context `{Platform}.

Local Abbreviation targetPath st cleanPath :=
  (Clean (cleanPath +:+ "/" +:+ WatchPath (config st))).

Local Abbreviation populate w reposRoot st names :=
  (foldl (fun st file => addRepo w (reposRoot +:+ "/" +:+ file) st) st names).




(** X20: how [watchRepos] ends.  It reaches the watch loops exactly when the
    root is a directory and its registration with the root watcher succeeds.
    It returns, with the error logged and no repository added, exactly when
    the root is a directory and the registration fails.  In every other case
    it panics before anything is changed: with a message naming the root
    when the root does not exist or is not a directory, with a nil
    dereference when [os.Stat] fails otherwise. *)
Theorem watchRepos_outcomes (w : World) (reposRoot : string) (st : State) :
  let registration := WatcherAdd w reposRoot (reposWatcher st) in
  ((exists st', watchRepos w reposRoot st = Watching st') <->
   Stat w reposRoot = FileInfo true /\ snd registration = None) /\
  (forall st', watchRepos w reposRoot st = Exited st' <->
     Stat w reposRoot = FileInfo true /\
     exists msg, snd registration = Some msg /\
                 st' = log logError msg (set_reposWatcher (fst registration) st)) /\
  (forall p st', watchRepos w reposRoot st = Aborted p st' <->
     st' = st /\
     (Stat w reposRoot = ErrNotExist /\
      p = PanicMessage ("repos root does not exists: " +:+ reposRoot) \/
      Stat w reposRoot = FileInfo false /\
      p = PanicMessage ("specified repos root is not a directory: " +:+ reposRoot) \/
      (exists msg, Stat w reposRoot = ErrOther msg) /\ p = NilDereference)).
Proof.
  cbv zeta. unfold watchRepos.
  destruct (Stat w reposRoot) as [[]| |msg];
    [destruct (WatcherAdd w reposRoot (reposWatcher st)) as [rw [err|]]; simpl|..].
  - split; [|split].
    + split; [intros [st' Hst']; discriminate|intros [_ ?]; discriminate].
    + intros st'. split.
      * intros Hst'. injection Hst' as <-. split; [done|]. by exists err.
      * intros (_ & msg & Hmsg & ->). by injection Hmsg as ->.
    + intros p st'. split; [discriminate|].
      intros (_ & [[? _]|[[? _]|[[? ?] _]]]); discriminate.
  - split; [|split].
    + split; [done|]. intros _. by eexists.
    + intros st'. split; [discriminate|]. intros (_ & msg & ? & _). discriminate.
    + intros p st'. split; [discriminate|].
      intros (_ & [[? _]|[[? _]|[[? ?] _]]]); discriminate.
  - split; [|split].
    + split; [intros [? ?]; discriminate|intros [? _]; discriminate].
    + intros st'. split; [discriminate|]. intros [? _]. discriminate.
    + intros p st'. split.
      * intros Hp. injection Hp as <- <-. split; [done|]. right. left. done.
      * intros (-> & [[? _]|[[_ ->]|[[? ?] _]]]); try discriminate. done.
  - split; [|split].
    + split; [intros [? ?]; discriminate|intros [? _]; discriminate].
    + intros st'. split; [discriminate|]. intros [? _]. discriminate.
    + intros p st'. split.
      * intros Hp. injection Hp as <- <-. split; [done|]. left. done.
      * intros (-> & [[_ ->]|[[? _]|[[? ?] _]]]); try discriminate. done.
  - split; [|split].
    + split; [intros [? ?]; discriminate|intros [? _]; discriminate].
    + intros st'. split; [discriminate|]. intros [? _]. discriminate.
    + intros p st'. split.
      * intros Hp. injection Hp as <- <-. split; [done|]. right. right.
        split; [by exists msg|done].
      * intros (-> & [[? _]|[[? _]|[_ ->]]]); try discriminate. done.
Qed.





End StartupFurther.

(** ** The further properties on the examples *)

(** X2 on an example: the pieces of an absolute path with a doubled
    separator. *)
Lemma Split_Join_round_trip_witness :
  Strings.Split (Strings.Join [EmptyString; "data"; EmptyString; "repos"] "/") "/"
  = [EmptyString; "data"; EmptyString; "repos"].
Proof.
  apply (Split_Join_round_trip [EmptyString; "data"; EmptyString; "repos"] "/").
  repeat constructor.
Defined.

(** X3 on an example. *)
Lemma Filepath_Split_characterised_witness :
  Filepath.Split "repos/alpha/src/main.txt" = ("repos/alpha/src/", "main.txt").
Proof.
  apply (Filepath_Split_characterised "repos/alpha/src/main.txt" "repos/alpha/src/" "main.txt").
  split; [reflexivity|]. split; [reflexivity|]. right. by exists "repos/alpha/src".
Defined.

(** X4 on an example: nothing is kept of the pieces of the root path. *)
Lemma filterEmptyParts_result_witness :
  cap (@filterEmptyParts (unix exampleConfig) (Strings.Split "//" PathSeparator)) = 0.
Proof.
  destruct (@filterEmptyParts_result (unix exampleConfig) (Strings.Split "//" PathSeparator))
    as (_ & _ & _ & Hzero & _).
  apply Hzero. reflexivity.
Defined.

(** X5 on an example: a relative root, a file two directories deep. *)
Lemma processEvent_repository_path_witness :
  exists st',
    processEvent relativeWorld {| Name := "repos/alpha/src/lib/main.txt"; Op := Write |}
      relativeStart = Returned st' /\
    executed st' = [("make", "repos/alpha")].
Proof.
  apply (processEvent_repository_path relativeWorld
           {| Name := "repos/alpha/src/lib/main.txt"; Op := Write |} relativeStart
           {| Match := fun b => contains b "txt" |}
           false ["repos"] ["src"; "lib"] "alpha" "main.txt").
  - repeat constructor. discriminate.
  - split; [discriminate|reflexivity].
  - repeat constructor; discriminate.
  - reflexivity.
  - reflexivity.
  - reflexivity.
  - reflexivity.
  - reflexivity.
  - reflexivity.
Defined.

(** X6 on the example of the absolute root. *)
Lemma processEvent_directory_never_absolute_witness :
  executed (stateOf (processEvent exampleWorld mainTxt exampleState)) = executed exampleState \/
  exists dir,
    executed (stateOf (processEvent exampleWorld mainTxt exampleState))
    = executed exampleState ++ [(Execute (config exampleState), dir)] /\
    IsAbs dir = false /\ dir <> EmptyString.
Proof.
  apply (processEvent_directory_never_absolute exampleWorld mainTxt exampleState).
  reflexivity.
Defined.

(** X7 on the examples: a file that cannot be examined, and a matching file
    directly under the file-system root. *)
Lemma processEvent_panics_exactly_witness :
  (exists p st', processEvent exampleWorld secretTxt exampleState = Panicked p st') /\
  processEvent exampleWorld {| Name := "/main.txt"; Op := Write |} exampleState
  = Panicked (SliceBoundsOutOfRange 3 0) exampleState.
Proof.
  destruct (processEvent_panics_exactly exampleWorld secretTxt exampleState)
    as ([_ Hpanics] & _ & _).
  destruct (processEvent_panics_exactly exampleWorld
              {| Name := "/main.txt"; Op := Write |} exampleState)
    as (_ & _ & Hbare).
  split.
  - apply Hpanics. left. eexists. reflexivity.
  - apply (Hbare {| Match := fun b => contains b "txt" |}); reflexivity.
Defined.

(** X11 on an example: a command that runs, then a panic. *)
Lemma serve_file_events_keep_repo_set_witness :
  currentlyWatching
    (stateOf (serve [(exampleWorld, FromWatcher mainTxt); (exampleWorld, FromWatcher secretTxt)]
                exampleState))
  = currentlyWatching exampleState.
Proof.
  apply (serve_file_events_keep_repo_set
           [(exampleWorld, FromWatcher mainTxt); (exampleWorld, FromWatcher secretTxt)]
           exampleState).
  repeat constructor; eexists; reflexivity.
Defined.

(** X12 on an example: [alpha] qualifies, [beta] has no [src]. *)
Lemma addRepo_postcondition_witness :
  is_Some (currentlyWatching (addRepo relativeWorld "repos/alpha/" relativeStart)
             !! "repos/alpha") /\
  currentlyWatching (addRepo relativeWorld "repos/alpha/" relativeStart) !! "repos/beta"
  = currentlyWatching relativeStart !! "repos/beta".
Proof.
  destruct (addRepo_postcondition relativeWorld "repos/alpha/" relativeStart)
    as ([_ Hmember] & Hother & _).
  split.
  - apply Hmember. right. split; reflexivity.
  - apply Hother. vm_compute. discriminate.
Defined.

(** X13 on an example. *)
Lemma removeRepo_postcondition_witness :
  currentlyWatching (removeRepo goneWorld "/data/repos/alpha" exampleState)
    !! "/data/repos/beta"
  = currentlyWatching exampleState !! "/data/repos/beta".
Proof.
  destruct (removeRepo_postcondition goneWorld goneWorld "/data/repos/alpha" exampleState)
    as (_ & Hother & _).
  apply Hother. vm_compute. discriminate.
Defined.

(** X14 on an example. *)
Lemma add_then_remove_witness :
  currentlyWatching
    (removeRepo relativeWorld "repos/alpha" (addRepo relativeWorld "repos/alpha/" relativeStart))
  = currentlyWatching relativeStart.
Proof.
  apply (add_then_remove relativeWorld relativeWorld "repos/alpha/" relativeStart);
    reflexivity.
Defined.

(** X15 on an example. *)
Lemma remove_then_add_witness :
  currentlyWatching
    (addRepo exampleWorld "/data/repos/alpha"
       (removeRepo goneWorld "/data/repos/alpha/" exampleState))
  = currentlyWatching exampleState.
Proof.
  apply (remove_then_add goneWorld exampleWorld "/data/repos/alpha" exampleState);
    reflexivity.
Defined.

(** X16 on an example: from the empty set, through an add, a command and a
    remove of another repository. *)
Lemma membership_values_true_witness :
  currentlyWatching
    (stateOf (serve [(exampleWorld, FromRepos {| Name := "/data/repos/alpha"; Op := Create |});
                     (exampleWorld, FromWatcher mainTxt);
                     (goneWorld, FromRepos {| Name := "/data/repos/beta"; Op := Remove |})]
                startState)) !! "/data/repos/alpha"
  = Some true.
Proof.
  destruct (membership_values_true
              [(exampleWorld, FromRepos {| Name := "/data/repos/alpha"; Op := Create |});
               (exampleWorld, FromWatcher mainTxt);
               (goneWorld, FromRepos {| Name := "/data/repos/beta"; Op := Remove |})]
              startState) as [_ Hvalues].
  - intros p b. simpl. rewrite lookup_empty. discriminate.
  - destruct (currentlyWatching _ !! "/data/repos/alpha") as [b|] eqn:Hl.
    + by rewrite (Hvalues "/data/repos/alpha" b Hl).
    + vm_compute in Hl. discriminate.
Defined.

(** X19 on an example. *)
Lemma perform_commutes_on_membership_witness :
  currentlyWatching
    (perform relativeWorld (TryAdd "repos/alpha")
       (perform relativeWorld (TryRemove "repos/beta") relativeStart))
  = currentlyWatching
      (perform relativeWorld (TryRemove "repos/beta")
         (perform relativeWorld (TryAdd "repos/alpha") relativeStart)).
Proof.
  apply (perform_commutes_on_membership relativeWorld relativeWorld
           (TryAdd "repos/alpha") (TryRemove "repos/beta") relativeStart).
  vm_compute. discriminate.
Defined.

(** X20 on an example: the relative root is a directory and registers. *)
Lemma watchRepos_outcomes_witness :
  exists st', watchRepos relativeWorld "repos" relativeStart = Watching st'.
Proof.
  destruct (watchRepos_outcomes relativeWorld "repos" relativeStart) as ([_ Hwatch] & _ & _).
  apply Hwatch. split; reflexivity.
Defined.


(** X10 on an example: another root of two parts. *)
Lemma processEvent_counts_root_parts_witness :
  processEvent exampleWorld mainTxt
    (set_config {| ReposRoot := "/srv/git"; WatchPath := "src";
                   WatchRegexp := "txt"; Execute := "make" |} exampleState)
  = match processEvent exampleWorld mainTxt exampleState with
    | Returned st' =>
        Returned (set_config {| ReposRoot := "/srv/git"; WatchPath := "src";
                                WatchRegexp := "txt"; Execute := "make" |} st')
    | Panicked p st' =>
        Panicked p (set_config {| ReposRoot := "/srv/git"; WatchPath := "src";
                                  WatchRegexp := "txt"; Execute := "make" |} st')
    end.
Proof.
  apply (processEvent_counts_root_parts exampleWorld mainTxt exampleState); reflexivity.
Defined.

